(** * gondola: the ORM join resolver and the SQL query executor

    A shallow embedding of [orm/model.go] (join chains, field mapping,
    model ordering) and of the [sql] package's [DB] handle (placeholder
    rewriting, statement cache, transactions), with the properties the
    specification states about them. *)

From Stdlib Require Import ZArith NArith Ascii String.
From stdpp Require Import base option list gmap strings pretty.

Local Open Scope string_scope.
Set Warnings "-register-all".

(** ** Go strings and interface values

    A Go string is a sequence of bytes, and so is a [string] here.  The
    helpers below are the slice and index expressions the code uses. *)

Module Go.

(** [s[i]]; [None] stands for the index-out-of-range panic. *)
Definition byte_at (s : string) (i : nat) : option ascii := String.get i s.

(** [s[lo:hi]] for [lo <= hi <= len(s)]. *)
Definition slice (s : string) (lo hi : nat) : string :=
  String.substring lo (hi - lo) s.

(** [s[lo:]]. *)
Definition slice_from (s : string) (lo : nat) : string :=
  String.substring lo (String.length s - lo) s.

(** [strings.IndexByte(s, c)]: the index of the first [c], or [-1]. *)
Fixpoint IndexByte_from (s : string) (c : ascii) (i : Z) : Z :=
  match s with
  | EmptyString => (-1)%Z
  | String a s' => if Ascii.eqb a c then i else IndexByte_from s' c (i + 1)%Z
  end.

Definition IndexByte (s : string) (c : ascii) : Z := IndexByte_from s c 0%Z.

(** Whether the byte [c] occurs in [s]. *)
Fixpoint contains (c : ascii) (s : string) : bool :=
  match s with
  | EmptyString => false
  | String a s' => Ascii.eqb a c || contains c s'
  end.

Definition squote : ascii := "'"%char.
Definition dquote : ascii := "034"%char.
Definition qmark : ascii := "?"%char.
Definition pipe : ascii := "|"%char.

(** The dynamic type of an interface value, as [reflect.Type] tells
    types apart: a predeclared type, or a defined type, by its name. *)
Inductive gotype :=
| Tbool
| Tint | Tint8 | Tint16 | Tint32 | Tint64
| Tuint | Tuint8 | Tuint16 | Tuint32 | Tuint64 | Tuintptr
| Tstring
| Tdefined (name : string).

(** A boolean, an integer of whatever size, or a string. *)
Inductive scalar :=
| SBool (b : bool)
| SInt (z : Z)
| SString (s : string).

(** Values passed as [interface{}]: query arguments and, in the ORM,
    the comparison values of conditions.  An interface value is nil or
    holds a value with its dynamic type: [int(1)] and [int64(1)] are
    two values.  The values are scalars; floating-point numbers and
    composite values, for which deep equality is not equality of the
    parts, are left out. *)
Inductive iface :=
| INil
| IVal (type : gotype) (value : scalar).

#[export] Instance gotype_eq_dec : EqDecision gotype.
Proof. solve_decision. Defined.

#[export] Instance scalar_eq_dec : EqDecision scalar.
Proof. solve_decision. Defined.

#[export] Instance iface_eq_dec : EqDecision iface.
Proof. solve_decision. Defined.

(** Values of the predeclared types [bool], [int] and [string], and a
    reference to a field by its qualified name, a value of a defined
    string type. *)
Definition IBool (b : bool) : iface := IVal Tbool (SBool b).
Definition IInt (z : Z) : iface := IVal Tint (SInt z).
Definition IString (s : string) : iface := IVal Tstring (SString s).
Definition IField (name : string) : iface := IVal (Tdefined "F") (SString name).

(** [reflect.DeepEqual] on these values: a nil interface is deeply
    equal to a nil interface only, values of distinct types are never
    deeply equal, and two scalars of one type are compared with [==]. *)
Definition DeepEqual (x y : iface) : bool :=
  match x, y with
  | INil, INil => true
  | IVal tx vx, IVal ty vy => bool_decide (tx = ty) && bool_decide (vx = vy)
  | _, _ => false
  end.

End Go.

(** ** The query executor ([package sql]) *)

Module Sql.
Import Go.

(** *** Placeholder rewriting *)

(** The local variables of [replacePlaceholders] that the loop updates. *)
Record rp_state := RpState {
  rp_buf : string;
  rp_inQuote : bool;
  rp_inDoubleQuote : bool;
  rp_p : nat;
  rp_written : nat
}.

Definition rp_init : rp_state := RpState "" false false 0 0.

Section Rewrite.
(** [d.driver.backend.Placeholder] *)
Variable placeholder : nat -> string.

(** One iteration of [for ii, ch := range query].  The three cases of
    the switch are ASCII characters; a byte inside a multi-byte rune is
    at least 0x80 and matches none of them, so ranging over bytes takes
    the same branches at the same offsets as ranging over runes. *)
Definition rp_step (query : string) (last : Z) (st : rp_state)
    (ii : nat) (ch : ascii) : rp_state :=
  if Ascii.eqb ch squote then
    if (Z.of_nat ii =? last)%Z
       || negb (bool_decide (byte_at query (ii + 1) = Some squote))
    then RpState (rp_buf st) (negb (rp_inQuote st)) (rp_inDoubleQuote st)
                 (rp_p st) (rp_written st)
    else st
  else if Ascii.eqb ch dquote then
    RpState (rp_buf st) (rp_inQuote st) (negb (rp_inDoubleQuote st))
            (rp_p st) (rp_written st)
  else if Ascii.eqb ch qmark then
    if negb (rp_inQuote st) && negb (rp_inDoubleQuote st)
    then RpState (rp_buf st ++ slice query (rp_written st) ii
                    ++ placeholder (rp_p st))
                 (rp_inQuote st) (rp_inDoubleQuote st)
                 (S (rp_p st)) (ii + 1)
    else st
  else st.

Fixpoint rp_loop (query : string) (last : Z) (ii : nat)
    (rest : list ascii) (st : rp_state) : rp_state :=
  match rest with
  | [] => st
  | ch :: rest' =>
      rp_loop query last (S ii) rest' (rp_step query last st ii ch)
  end.

Definition rp_run (query : string) : rp_state :=
  rp_loop query (Z.of_nat (String.length query) - 1) 0
          (list_ascii_of_string query) rp_init.

Definition replacePlaceholders (query : string) : string :=
  let st := rp_run query in
  if Nat.eqb (rp_written st) 0 then query
  else rp_buf st ++ slice_from query (rp_written st).

End Rewrite.

(** A backend with numbered placeholders [$1, $2, ...]. *)
Definition dollar (n : nat) : string := "$" ++ pretty (n + 1).

(** *** The handle and the world around it *)

Inductive error :=
| ErrInTransaction              (* driver.ErrInTransaction *)
| ErrNotInTransaction           (* driver.ErrNotInTransaction *)
| ErrBackend (code : nat).      (* an error reported by database/sql *)

#[export] Instance error_eq_dec : EqDecision error.
Proof. solve_decision. Defined.

(** Pointers to objects owned by database/sql. *)
Definition SqlDB := nat.
Definition Tx := nat.
Definition Stmt := nat.

(** [conn queryExecutor]: either [sqlDb] or [tx]. *)
Inductive queryExecutor :=
| ConnDB (db : SqlDB)
| ConnTx (t : Tx).

Inductive op := OpExec | OpQuery | OpQueryRow.

(** The calls a handle makes on its collaborators. *)
Inductive call :=
| SqlDbPrepare (db : SqlDB) (s : string)
| SqlDbBegin (db : SqlDB)
| SqlDbClose (db : SqlDB)
| TxCommit (t : Tx)
| TxRollback (t : Tx)
| TxStmt (t : Tx) (st : Stmt)
| ConnRun (o : op) (c : queryExecutor) (query : string) (args : list iface)
| StmtRun (o : op) (st : Stmt) (args : list iface)
| Debugq (query : string) (args : list iface).

Record cacheEntry := CacheEntry {
  ce_sql : string;
  ce_stmt : Stmt
}.

(** [type DB struct].  [cache] is a Go map, that is a reference: [None]
    is the nil map, [Some r] points to the map stored at [r] in the
    world, so that handles copied from one another share it.  The mutex
    only matters to concurrent callers and has no field here. *)
Record DB := mkDB {
  sqlDb : SqlDB;
  tx : option Tx;
  txDone : bool;
  conn : queryExecutor;
  replacesPlaceholders : bool;
  cache : option nat
}.

(** What lies outside the handles: the calls made so far, oldest first,
    and the cache maps. *)
Record world := World {
  history : list call;
  caches : list (gmap N cacheEntry)
}.

Definition log (c : call) (w : world) : world :=
  World (history w ++ [c]) (caches w).

Section Executor.
(** The backend's placeholder syntax and [crc32.ChecksumIEEE]. *)
Variable placeholder : nat -> string.
Variable checksum : string -> N.

(** The answers of database/sql, which may depend on everything that
    was called before.  [Prepare] answers with a pair, as in Go, of which
    the code looks at the statement only.  [Begin] answers with a
    transaction or with an error, the one the code checks for. *)
Variable Prepare_r : list call -> string -> option Stmt * option error.
Variable Begin_r : list call -> Tx + error.
Variable err_r : list call -> call -> option error.
Variable Stmt_r : list call -> Tx -> Stmt -> Stmt.
Variable Result : Type.
Variable run_r : list call -> call -> Result.

(** [d.cache[key]], with Go's comma-ok result as an option. *)
Definition cache_lookup (d : DB) (w : world) (key : N) : option cacheEntry :=
  match cache d with
  | None => None
  | Some r =>
      match caches w !! r with
      | Some m => m !! key
      | None => None
      end
  end.

(** [if d.tx != nil { return d.tx.Stmt(stmt) }; return stmt] *)
Definition bound_stmt (d : DB) (stmt : Stmt) (w : world) : Stmt * world :=
  match tx d with
  | Some t => (Stmt_r (history w) t stmt, log (TxStmt t stmt) w)
  | None => (stmt, w)
  end.

(** [d.cache[key] = entry], after [make] when the map is nil. *)
Definition cache_store (d : DB) (key : N) (e : cacheEntry) (w : world)
    : DB * world :=
  match cache d with
  | None =>
      (mkDB (sqlDb d) (tx d) (txDone d) (conn d) (replacesPlaceholders d)
            (Some (length (caches w))),
       World (history w) (caches w ++ [ {[ key := e ]} ]))
  | Some r =>
      (d, World (history w) (alter (insert key e) r (caches w)))
  end.

Definition preparedStmt (d : DB) (s : string) (w : world)
    : option Stmt * DB * world :=
  let key := checksum s in
  let fresh :=
    let stmt := fst (Prepare_r (history w) s) in
    let w1 := log (SqlDbPrepare (sqlDb d) s) w in
    match stmt with
    | None => (None, d, w1)
    | Some stmt =>
        let '(d2, w2) := cache_store d key (CacheEntry s stmt) w1 in
        let '(st, w3) := bound_stmt d2 stmt w2 in
        (Some st, d2, w3)
    end in
  match cache_lookup d w key with
  | Some cached =>
      if String.eqb (ce_sql cached) s then
        let '(st, w1) := bound_stmt d (ce_stmt cached) w in
        (Some st, d, w1)
      else fresh
  | None => fresh
  end.

(** A map pointer that is not nil points to a map. *)
Definition valid_cache (d : DB) (w : world) : Prop :=
  forall r, cache d = Some r -> r < length (caches w).

(** What a call of [preparedStmt d s w] does when it prepares afresh:
    [Prepare] is called with [s]; without a statement nothing else
    happens; with one, it is stored under the key of [s] together with
    [s], and returned, bound to the transaction if there is one. *)
Definition prepares_afresh (d : DB) (s : string) (w : world)
    (r : option Stmt * DB * world) : Prop :=
  match (Prepare_r (history w) s).1 with
  | None => r = (None, d, log (SqlDbPrepare (sqlDb d) s) w)
  | Some stmt =>
      exists d' w',
        r = (Some (match tx d with
                   | Some t =>
                       Stmt_r (history w ++ [SqlDbPrepare (sqlDb d) s]) t stmt
                   | None => stmt
                   end), d', w')
        /\ cache_lookup d' w' (checksum s) = Some (CacheEntry s stmt)
        /\ history w'
           = (history w ++ SqlDbPrepare (sqlDb d) s
                :: match tx d with Some t => [TxStmt t stmt] | None => [] end)%list
        /\ tx d' = tx d /\ conn d' = conn d /\ sqlDb d' = sqlDb d
        /\ txDone d' = txDone d
  end.

(** The text each entry point hands on, as its first lines compute it. *)
Definition rewritten (d : DB) (query : string) : string :=
  if replacesPlaceholders d then replacePlaceholders placeholder query
  else query.

Definition stmt_run (o : op) (stmt : Stmt) (args : list iface) (w : world)
    : Result * world :=
  let c := StmtRun o stmt args in (run_r (history w) c, log c w).

Definition conn_run (o : op) (c : queryExecutor) (query : string)
    (args : list iface) (w : world) : Result * world :=
  let c := ConnRun o c query args in (run_r (history w) c, log c w).

(** The part the three entry points share after the text is fixed:
    [debugq], then the prepared statement when there are arguments and
    preparing works, else the connection. *)
Definition run (o : op) (d : DB) (query : string) (args : list iface)
    (w : world) : Result * DB * world :=
  let w := log (Debugq query args) w in
  if (0 <? length args)%nat then
    match preparedStmt d query w with
    | (Some stmt, d1, w1) =>
        let '(r, w2) := stmt_run o stmt args w1 in (r, d1, w2)
    | (None, d1, w1) =>
        let '(r, w2) := conn_run o (conn d1) query args w1 in (r, d1, w2)
    end
  else
    let '(r, w1) := conn_run o (conn d) query args w in (r, d, w1).

Definition Exec (d : DB) (query : string) (args : list iface) (w : world)
    : Result * DB * world :=
  let query :=
    if replacesPlaceholders d then replacePlaceholders placeholder query
    else query in
  run OpExec d query args w.

Definition Query (d : DB) (query : string) (args : list iface) (w : world)
    : Result * DB * world :=
  let query :=
    if replacesPlaceholders d then replacePlaceholders placeholder query
    else query in
  run OpQuery d query args w.

Definition QueryRow (d : DB) (query : string) (args : list iface) (w : world)
    : Result * DB * world :=
  let query :=
    if replacesPlaceholders d then replacePlaceholders placeholder query
    else query in
  let query := replacePlaceholders placeholder query in
  run OpQueryRow d query args w.

(** Preparing [text] fails in [Exec], [Query] or [QueryRow]: the cache
    has no entry with this text, and [Prepare], called after [debugq],
    returns no statement. *)
Definition prepare_fails (d : DB) (text : string) (args : list iface)
    (w : world) : Prop :=
  (forall e, cache_lookup d w (checksum text) = Some e -> ce_sql e <> text)
  /\ (Prepare_r (history w ++ [Debugq text args]) text).1 = None.

(** The unprepared call on the connection that follows a failed
    [Prepare]: its answer, the handle, and the calls made. *)
Definition fallback (o : op) (d : DB) (text : string) (args : list iface)
    (w : world) : Result * DB * world :=
  (run_r (history w ++ [Debugq text args; SqlDbPrepare (sqlDb d) text])
         (ConnRun o (conn d) text args),
   d,
   World (history w ++ [Debugq text args; SqlDbPrepare (sqlDb d) text;
                        ConnRun o (conn d) text args])
         (caches w)).

(** [Begin] returns a new handle and an error, one of them nil. *)
Definition Begin (d : DB) (w : world) : (option DB * option error) * DB * world :=
  match tx d with
  | Some _ => ((None, Some ErrInTransaction), d, w)
  | None =>
      let w1 := log (SqlDbBegin (sqlDb d)) w in
      match Begin_r (history w) with
      | inr e => ((None, Some e), d, w1)
      | inl t =>
          ((Some (mkDB (sqlDb d) (Some t) (txDone d) (ConnTx t)
                       (replacesPlaceholders d) (cache d)), None), d, w1)
      end
  end.

Definition set_txDone (d : DB) : DB :=
  mkDB (sqlDb d) (tx d) true (conn d) (replacesPlaceholders d) (cache d).

Definition Commit (d : DB) (w : world) : option error * DB * world :=
  match tx d with
  | None => (Some ErrNotInTransaction, d, w)
  | Some t =>
      (err_r (history w) (TxCommit t), set_txDone d, log (TxCommit t) w)
  end.

Definition Rollback (d : DB) (w : world) : option error * DB * world :=
  match tx d with
  | None => (Some ErrNotInTransaction, d, w)
  | Some t =>
      (err_r (history w) (TxRollback t), set_txDone d, log (TxRollback t) w)
  end.

Definition Close (d : DB) (w : world) : option error * DB * world :=
  match tx d with
  | Some t =>
      if negb (txDone d) then
        (err_r (history w) (TxRollback t), d, log (TxRollback t) w)
      else (None, d, w)
  | None =>
      (err_r (history w) (SqlDbClose (sqlDb d)), d, log (SqlDbClose (sqlDb d)) w)
  end.

End Executor.

Arguments stmt_run {Result} run_r o stmt args w.
Arguments conn_run {Result} run_r o c query args w.
Arguments run checksum Prepare_r Stmt_r {Result} run_r o d query args w.
Arguments Exec placeholder checksum Prepare_r Stmt_r {Result} run_r d query args w.
Arguments Query placeholder checksum Prepare_r Stmt_r {Result} run_r d query args w.
Arguments QueryRow placeholder checksum Prepare_r Stmt_r {Result} run_r d query args w.
Arguments fallback {Result} run_r o d text args w.

(** *** CRC-32 (IEEE 802.3), the key of the statement cache *)

Definition crc_bit (c : N) : N :=
  if N.testbit c 0 then N.lxor (N.shiftr c 1) 0xEDB88320%N else N.shiftr c 1.

Definition crc_byte (c : N) (b : ascii) : N :=
  Nat.iter 8 crc_bit (N.lxor c (N_of_ascii b)).

Definition ChecksumIEEE (s : string) : N :=
  N.lxor (fold_left crc_byte (list_ascii_of_string s) 0xFFFFFFFF%N) 0xFFFFFFFF%N.

(** *** Collaborators to run the handle against *)

(** database/sql answering every call with success: a new statement or
    transaction is named after the number of calls made before it. *)
Definition prepares : list call -> string -> option Stmt * option error :=
  fun h _ => (Some (length h), None).

Definition never_prepares : list call -> string -> option Stmt * option error :=
  fun _ _ => (None, Some (ErrBackend 1)).

Definition begins : list call -> Tx + error :=
  fun h => inl (length h).

Definition no_error : list call -> call -> option error :=
  fun _ _ => None.

(** [sql.ErrTxDone], and a transaction that answers with it once it has
    been committed or rolled back, as database/sql documents. *)
Definition ErrTxDone : error := ErrBackend 0.

Definition finishes (t : Tx) (c : call) : bool :=
  match c with
  | TxCommit t' | TxRollback t' => Nat.eqb t t'
  | _ => false
  end.

Definition tx_done_r : list call -> call -> option error :=
  fun h c =>
    match c with
    | TxCommit t | TxRollback t =>
        if existsb (finishes t) h then Some ErrTxDone else None
    | _ => None
    end.

Definition rebinds : list call -> Tx -> Stmt -> Stmt :=
  fun _ t st => 1000 + st.

(** The result of running a statement or a query: here, what was run. *)
Definition echo : list call -> call -> call := fun _ c => c.

(** A backend whose placeholders are [?1, ?2, ...]. *)
Definition numbered (n : nat) : string := "?" ++ pretty (n + 1).

Definition w0 : world := World [] [].

(** Handles and worlds to run the examples on: a plain handle of a
    backend that rewrites placeholders, the same with a cache that holds
    a statement for the text [plumless], a handle of a backend that does
    not rewrite, and a handle inside transaction 1. *)
Definition plain : DB := mkDB 0 None false (ConnDB 0) true None.
Definition caching : DB := mkDB 0 None false (ConnDB 0) true (Some 0).
Definition verbatim : DB := mkDB 0 None false (ConnDB 0) false None.
Definition in_tx : DB := mkDB 0 (Some 1) false (ConnTx 1) true None.

Definition cached_plumless : world :=
  World [] [ {[ ChecksumIEEE "plumless" := CacheEntry "plumless" 7 ]} ].

(** *** Rewriting as a scan of the text that is left

    [rewrite] reads the text once and emits what [replacePlaceholders]
    returns, without offsets into the text and without a buffer: the
    state is the two quote flags and the index of the next placeholder. *)

Definition starts_with_quote (s : string) : bool :=
  match s with
  | String c _ => Ascii.eqb c squote
  | EmptyString => false
  end.

Fixpoint rewrite (placeholder : nat -> string) (inQuote inDoubleQuote : bool)
    (p : nat) (s : string) : string :=
  match s with
  | EmptyString => EmptyString
  | String ch rest =>
      if Ascii.eqb ch squote then
        String ch (rewrite placeholder
                     (if starts_with_quote rest then inQuote else negb inQuote)
                     inDoubleQuote p rest)
      else if Ascii.eqb ch dquote then
        String ch (rewrite placeholder inQuote (negb inDoubleQuote) p rest)
      else if Ascii.eqb ch qmark then
        if negb inQuote && negb inDoubleQuote
        then placeholder p ++ rewrite placeholder inQuote inDoubleQuote (S p) rest
        else String ch (rewrite placeholder inQuote inDoubleQuote p rest)
      else String ch (rewrite placeholder inQuote inDoubleQuote p rest)
  end.

(** A text without quotes and question marks. *)
Definition plain_text (s : string) : bool :=
  negb (contains squote s) && negb (contains dquote s) && negb (contains qmark s).

(** Segments of text with a question mark between each two, and with the
    placeholders [p], [p + 1], ... between each two. *)
Fixpoint with_question_marks (seg : string) (segs : list string) : string :=
  match segs with
  | [] => seg
  | s :: rest => seg ++ String qmark (with_question_marks s rest)
  end.

Fixpoint with_placeholders (placeholder : nat -> string) (p : nat)
    (seg : string) (segs : list string) : string :=
  match segs with
  | [] => seg
  | s :: rest => seg ++ placeholder p ++ with_placeholders placeholder (S p) s rest
  end.

(** *** Quoting *)

(** [string(q)] for a byte [q]: the UTF-8 encoding of the code point. *)
Definition string_of_byte (q : ascii) : string :=
  let n := N_of_ascii q in
  if (n <? 128)%N then String q EmptyString
  else String (ascii_of_N (192 + n / 64))
         (String (ascii_of_N (128 + n mod 64)) EmptyString).

(** [strings.Replace(s, old, new, -1)] for a non-empty [old]: the
    occurrences of [old] from the left, without overlap.  [skip] counts
    the bytes of an occurrence that are still to be passed over. *)
Fixpoint Replace_from (old new : string) (skip : nat) (s : string) : string :=
  match s with
  | EmptyString => EmptyString
  | String c rest =>
      match skip with
      | S k => Replace_from old new k rest
      | O =>
          if String.prefix old s
          then new ++ Replace_from old new (String.length old - 1) rest
          else String c (Replace_from old new 0 rest)
      end
  end.

Definition Replace (s old new : string) : string := Replace_from old new 0 s.

Definition backslash : ascii := "\"%char.

Definition quoteWith (s : string) (q : ascii) : string :=
  let qu := string_of_byte q in
  let escaped :=
    if Ascii.eqb q squote
    then Replace s (String squote EmptyString)
                 (String squote (String squote EmptyString))
    else Replace s qu (String backslash qu) in
  qu ++ escaped ++ qu.

Section Quoting.
(** [d.driver.backend.StringQuote()] and [IdentifierQuote()] *)
Variable StringQuote : ascii.
Variable IdentifierQuote : ascii.

Definition QuoteString (s : string) : string := quoteWith s StringQuote.
Definition QuoteIdentifier (s : string) : string := quoteWith s IdentifierQuote.
End Quoting.

(** The escaped form of one byte of the text, for a quote below 0x80. *)
Definition escape_byte (q c : ascii) : string :=
  if Ascii.eqb c q
  then String (if Ascii.eqb q squote then squote else backslash)
              (String q EmptyString)
  else String c EmptyString.

Fixpoint escape_bytes (q : ascii) (s : string) : string :=
  match s with
  | EmptyString => EmptyString
  | String c rest => escape_byte q c ++ escape_bytes q rest
  end.

(** How many calls of a handle's history run a statement or a query, and
    how many prepare one. *)
Definition is_run (c : call) : bool :=
  match c with
  | ConnRun _ _ _ _ | StmtRun _ _ _ => true
  | _ => false
  end.

Definition is_prepare (c : call) : bool :=
  match c with
  | SqlDbPrepare _ _ => true
  | _ => false
  end.

Definition count_calls (f : call -> bool) (h : list call) : nat :=
  length (filter (fun c => f c = true) h).

End Sql.

(** ** The join resolver and the field mapper ([package orm]) *)

Module Orm.
Import Go.

Inductive JoinType := InnerJoin | OuterJoin | LeftJoin | RightJoin.

(** [query.Q]: the equality condition, which [joinWith] tells apart by a
    type assertion, the other conditions on one field, and the
    combinators with their sub-conditions. *)
Inductive Q :=
| Eq (Field : string) (Value : iface)
| Cmp (kind : nat) (Field : string) (Value : iface)
| Comb (kind : nat) (Conditions : list Q).

(** Pointers: to a [model], and to a [joinModel] or a [join]. *)
Abbreviation modelPtr := nat (only parsing).
Abbreviation addr := nat (only parsing).

Definition rtype := string.     (* reflect.Type *)
Definition Methods := nat.      (* *driver.Methods *)

Record Reference := mkReference {
  ref_Model : modelPtr;
  ref_Field : string
}.

(** The fields of [driver.Fields] that this file reads. *)
Record Fields := mkFields {
  QNameMap : gmap string nat;
  QuotedNames : list string;
  Types : list rtype;
  References : list Reference;
  fields_Methods : Methods
}.

(** [type model struct]; [modelReferences] lists pointers to joins.  A
    map to pointers holds the non-nil ones: a key with a nil value reads
    like a missing key wherever the code looks one up. *)
Record model := mkModel {
  name : string;
  shortName : string;
  table : string;
  fields : Fields;
  modelReferences : gmap modelPtr (list addr);
  namedReferences : gmap string modelPtr
}.

(** [type join struct] and [type joinModel struct], as heap cells. *)
Record join := mkJoin {
  join_model : addr;
  join_jtype : JoinType;
  join_q : option Q
}.

Record joinModel := mkJoinModel {
  jm_model : option modelPtr;
  jm_skip : bool;
  jm_join : option addr
}.

(** The heap: every [joinModel] and every [join] allocated so far.  A
    pointer is an index; an index outside the heap is the nil pointer. *)
Record heap := mkHeap {
  joinModels : list joinModel;
  joins : list join
}.

Inductive error :=
| errCantMap (qname : string)
| errNotThisModel (name : string)
| errAmbiguous (qname : string)
| errCantJoin (j : addr) (target : modelPtr)
| errAmbiguousJoin (j : addr) (target : modelPtr) (q : option Q).

(** What a call does: return, return an error, panic on a nil pointer or
    an index out of range, or still be running when the fuel is spent. *)
Inductive outcome (A : Type) :=
| Ret (a : A)
| Fail (e : error)
| Panic
| OutOfFuel.
Arguments Ret {A} a.
Arguments Fail {A} e.
Arguments Panic {A}.
Arguments OutOfFuel {A}.

#[export] Instance outcome_ret : MRet outcome := fun A a => Ret a.
#[export] Instance outcome_bind : MBind outcome := fun A B f c =>
  match c with
  | Ret a => f a
  | Fail e => Fail e
  | Panic => Panic
  | OutOfFuel => OutOfFuel
  end.

(** Dereference: a pointer outside the store is nil. *)
Definition deref {A} (l : list A) (a : nat) : outcome A :=
  match l !! a with
  | Some x => Ret x
  | None => Panic
  end.

Definition alloc_joinModel (c : joinModel) (h : heap) : addr * heap :=
  (length (joinModels h), mkHeap (joinModels h ++ [c]) (joins h)).

Definition alloc_join (c : join) (h : heap) : addr * heap :=
  (length (joins h), mkHeap (joinModels h) (joins h ++ [c])).

Definition set_joinModel (a : addr) (c : joinModel) (h : heap) : heap :=
  mkHeap (<[a := c]> (joinModels h)) (joins h).

Definition set_join (a : addr) (c : join) (h : heap) : heap :=
  mkHeap (joinModels h) (<[a := c]> (joins h)).

(** [joinModel.clone] with [join.clone] inlined at its one call.
    The new cells are allocated once their fields are known; addresses
    are not observable, so the order of allocation is immaterial. *)
Fixpoint joinModel_clone (fuel : nat) (h : heap) (a : addr)
    : outcome (addr * heap) :=
  match fuel with
  | O => OutOfFuel
  | S fuel' =>
      j ← deref (joinModels h) a;
      match jm_join j with
      | None => Ret (alloc_joinModel (mkJoinModel (jm_model j) (jm_skip j) None) h)
      | Some ja =>
          jc ← deref (joins h) ja;
          '(m', h1) ← joinModel_clone fuel' h (join_model jc);
          let '(ja', h2) :=
            alloc_join (mkJoin m' (join_jtype jc) (join_q jc)) h1 in
          Ret (alloc_joinModel
                 (mkJoinModel (jm_model j) (jm_skip j) (Some ja')) h2)
      end
  end.

Definition join_clone (fuel : nat) (h : heap) (ja : addr)
    : outcome (addr * heap) :=
  jc ← deref (joins h) ja;
  '(m', h1) ← joinModel_clone fuel h (join_model jc);
  Ret (alloc_join (mkJoin m' (join_jtype jc) (join_q jc)) h1).

(** [case 1] of the switch in [joinWith], with the [return] it leads to:
    [m.join = candidates[0].clone()], [m.join.jtype = jt],
    [return m.join.model, nil]. *)
Definition attach_clone (fuel : nat) (h : heap) (m c : addr) (jt : JoinType)
    : outcome (addr * heap) :=
  '(ja, h1) ← join_clone fuel h c;
  mcell ← deref (joinModels h1) m;
  let h2 := set_joinModel m
    (mkJoinModel (jm_model mcell) (jm_skip mcell) (Some ja)) h1 in
  jc ← deref (joins h2) ja;
  let h3 := set_join ja (mkJoin (join_model jc) jt (join_q jc)) h2 in
  Ret (join_model jc, h3).

(** [model.Fields] *)
Definition model_Fields (m : model) : Fields := fields m.

Section Catalog.
(** The registered models, read-only while queries are built. *)
Variable models : gmap modelPtr model.

Definition deref_model (p : option modelPtr) : outcome model :=
  match p with
  | Some p' => match models !! p' with Some m => Ret m | None => Panic end
  | None => Panic
  end.

Definition joinModel_Fields (h : heap) (j : addr) : outcome (option Fields) :=
  c ← deref (joinModels h) j;
  if jm_skip c then Ret None
  else m ← deref_model (jm_model c); Ret (Some (model_Fields m)).

Definition joinModel_Skip (h : heap) (j : addr) : outcome bool :=
  c ← deref (joinModels h) j; Ret (jm_skip c).

(** The loop of the implicit join: the candidates of every model of
    the chain, and the last node. *)
Fixpoint collect (fuel : nat) (h : heap) (m : addr) (target : modelPtr)
    (candidates : list addr) : outcome (list addr * addr) :=
  match fuel with
  | O => OutOfFuel
  | S fuel' =>
      c ← deref (joinModels h) m;
      md ← deref_model (jm_model c);
      let candidates :=
        (candidates ++ default [] (modelReferences md !! target))%list in
      match jm_join c with
      | None => Ret (candidates, m)
      | Some ja =>
          jc ← deref (joins h) ja;
          collect fuel' h (join_model jc) target candidates
      end
  end.

(** [for m.join != nil { m = m.join.model }] *)
Fixpoint last_node (fuel : nat) (h : heap) (m : addr) : outcome addr :=
  match fuel with
  | O => OutOfFuel
  | S fuel' =>
      c ← deref (joinModels h) m;
      match jm_join c with
      | None => Ret m
      | Some ja => jc ← deref (joins h) ja; last_node fuel' h (join_model jc)
      end
  end.

(** The loop over [candidates[1:]], up to its [break]: true when every
    one is an equality against the model and the value of the first.
    [first_jm] is [first.model], dereferenced where Go does. *)
Fixpoint all_equal (h : heap) (first_jm : addr) (first_value : iface)
    (rest : list addr) : outcome bool :=
  match rest with
  | [] => Ret true
  | v :: rest' =>
      vc ← deref (joins h) v;
      match join_q vc with
      | Some (Eq _ vvalue) =>
          fm ← deref (joinModels h) first_jm;
          vm ← deref (joinModels h) (join_model vc);
          if bool_decide (jm_model fm = jm_model vm)
             && DeepEqual first_value vvalue
          then all_equal h first_jm first_value rest'
          else Ret false
      | _ => Ret false
      end
  end.

(** [if len(candidates) > 1 { ... }] *)
Definition collapse (h : heap) (candidates : list addr) : outcome (list addr) :=
  match candidates with
  | first :: ((_ :: _) as rest) =>
      fc ← deref (joins h) first;
      match join_q fc with
      | Some (Eq _ value) =>
          equal ← all_equal h (join_model fc) value rest;
          Ret (if equal : bool then [first] else candidates)
      | _ => Ret candidates
      end
  | _ => Ret candidates
  end.

Definition joinWith (fuel : nat) (j : addr) (target : modelPtr)
    (q : option Q) (jt : JoinType) (h : heap) : outcome (addr * heap) :=
  jcell ← deref (joinModels h) j;
  match jm_model jcell with
  | None =>
      Ret (j, set_joinModel j
                (mkJoinModel (Some target) (jm_skip jcell) (jm_join jcell)) h)
  | Some _ =>
      match q with
      | None =>
          '(candidates, m) ← collect fuel h j target [];
          candidates ← collapse h candidates;
          match candidates with
          | [c] => attach_clone fuel h m c jt
          | [] => Fail (errCantJoin j target)
          | _ => Fail (errAmbiguousJoin j target q)
          end
      | Some _ =>
          m ← last_node fuel h j;
          let '(nm, h1) := alloc_joinModel (mkJoinModel (Some target) false None) h in
          let '(ja, h2) := alloc_join (mkJoin nm jt q) h1 in
          mcell ← deref (joinModels h2) m;
          let h3 := set_joinModel m
            (mkJoinModel (jm_model mcell) (jm_skip mcell) (Some ja)) h2 in
          Ret (nm, h3)
      end
  end.

(** *** Chains, and what the specification says about them *)

(** [chain h a l]: starting at [a] and following the joins, the heap
    [h] holds a chain whose nodes are [l], from [a] to the tail. *)
Inductive chain (h : heap) : addr -> list addr -> Prop :=
| chain_tail a c :
    joinModels h !! a = Some c -> jm_join c = None -> chain h a [a]
| chain_link a c ja jc l :
    joinModels h !! a = Some c -> jm_join c = Some ja ->
    joins h !! ja = Some jc -> chain h (join_model jc) l ->
    chain h a (a :: l).

(** The model a node stands for, when the node, its model pointer and
    the model are all there. *)
Definition node_model (h : heap) (a : addr) : option model :=
  match joinModels h !! a with
  | Some c => match jm_model c with Some p => models !! p | None => None end
  | None => None
  end.

Definition resolved (h : heap) (l : list addr) : Prop :=
  Forall (fun a => is_Some (node_model h a)) l.

(** The references to [target] of every model of the chain. *)
Definition candidates_of (h : heap) (target : modelPtr) (l : list addr)
    : list addr :=
  flat_map (fun a =>
    match node_model h a with
    | Some md => default [] (modelReferences md !! target)
    | None => []
    end) l.

(** A reference is a join in the heap whose join model starts a chain. *)
Definition valid_join (h : heap) (ja : addr) : Prop :=
  exists jc l, joins h !! ja = Some jc /\ chain h (join_model jc) l.

(** [ja] is an equality condition with value [value] against the model
    [target]. *)
Definition equality_against (h : heap) (target : option modelPtr)
    (value : iface) (ja : addr) : bool :=
  match joins h !! ja with
  | Some jc =>
      match join_q jc, joinModels h !! join_model jc with
      | Some (Eq _ v), Some m =>
          bool_decide (jm_model m = target) && bool_decide (v = value)
      | _, _ => false
      end
  | None => false
  end.

(** More than one candidate, all of them equality conditions against
    the same model and the same value. *)
Definition redundant (h : heap) (candidates : list addr) : bool :=
  match candidates with
  | first :: ((_ :: _) as rest) =>
      match joins h !! first with
      | Some fc =>
          match join_q fc, joinModels h !! join_model fc with
          | Some (Eq _ v), Some fm =>
              forallb (equality_against h (jm_model fm) v) rest
          | _, _ => false
          end
      | None => false
      end
  | _ => false
  end.

(** The model [joinWithField] finds for [typ]: the one the first
    model of the chain that names [typ] among its references names. *)
Fixpoint named_of (h : heap) (typ : string) (l : list addr)
    : option modelPtr :=
  match l with
  | [] => None
  | a :: l' =>
      match node_model h a with
      | Some md =>
          match namedReferences md !! typ with
          | Some target => Some target
          | None => named_of h typ l'
          end
      | None => None
      end
  end.

(** The catalog is closed: the models that references name are
    registered, and the joins of references are in the heap. *)
Definition catalog_closed (h : heap) : Prop :=
  forall p md, models !! p = Some md ->
    (forall typ target, namedReferences md !! typ = Some target ->
                        is_Some (models !! target))
    /\ (forall target l, modelReferences md !! target = Some l ->
                         Forall (valid_join h) l).

(** Node [a'] of [h'] is a copy of node [a] of [h]: the same model and
    skip flag, and an outgoing join in one if in the other, with the
    same type and condition. *)
Definition copy_of (h h' : heap) (a a' : addr) : Prop :=
  exists c c',
    joinModels h !! a = Some c /\ joinModels h' !! a' = Some c'
    /\ jm_model c' = jm_model c /\ jm_skip c' = jm_skip c
    /\ match jm_join c, jm_join c' with
       | None, None => True
       | Some x, Some x' =>
           exists jc jc',
             joins h !! x = Some jc /\ joins h' !! x' = Some jc'
             /\ join_jtype jc' = join_jtype jc /\ join_q jc' = join_q jc
       | _, _ => False
       end.

(** [h'] is [h] after the implicit join took candidate [c]: the tail
    [t] of the chain has a new join of type [jt] with the condition of
    [c], which leads to [added], the head of a fresh copy [l'] of the
    chain [lc] of the join model of [c]; nothing else of [h] changed,
    the candidate least of all. *)
Definition appended (h : heap) (j : addr) (nodes : list addr) (c : addr)
    (jt : JoinType) (added : addr) (h' : heap) : Prop :=
  exists t tc cc lc ja l',
    last nodes = Some t
    /\ joinModels h !! t = Some tc
    /\ joins h !! c = Some cc
    /\ chain h (join_model cc) lc
    /\ joinModels h' !! t
       = Some (mkJoinModel (jm_model tc) (jm_skip tc) (Some ja))
    /\ joins h' !! ja = Some (mkJoin added jt (join_q cc))
    /\ length (joins h) <= ja
    /\ chain h' added l'
    /\ Forall (fun x => length (joinModels h) <= x) l'
    /\ Forall2 (copy_of h h') lc l'
    /\ chain h' j (nodes ++ l')
    /\ (forall a, a < length (joinModels h) -> a <> t ->
          joinModels h' !! a = joinModels h !! a)
    /\ (forall a, a < length (joins h) -> joins h' !! a = joins h !! a).

(** The search of [joinWithField] for a model of the chain that names
    [typ] among its references. *)
Fixpoint find_named (fuel : nat) (h : heap) (m : addr) (typ : string)
    : outcome (option modelPtr) :=
  match fuel with
  | O => OutOfFuel
  | S fuel' =>
      c ← deref (joinModels h) m;
      md ← deref_model (jm_model c);
      match namedReferences md !! typ with
      | Some target => Ret (Some target)
      | None =>
          match jm_join c with
          | None => Ret None
          | Some ja =>
              jc ← deref (joins h) ja;
              find_named fuel' h (join_model jc) typ
          end
      end
  end.

(** The state [joinWithField] works on: the visited set, the
    accumulated methods, and the heap. *)
Record fstate := mkFState {
  fs_models : gset modelPtr;
  fs_methods : list Methods;
  fs_heap : heap
}.

Definition joinWithField (fuel : nat) (j : addr) (field : string)
    (jt : JoinType) (s : fstate) : outcome fstate :=
  let pipe := IndexByte field pipe in
  if (pipe <? 0)%Z then Ret s
  else
    let typ := slice field 0 (Z.to_nat pipe) in
    found ← find_named fuel (fs_heap s) j typ;
    match found with
    | None => Ret s
    | Some target =>
        if bool_decide (target ∈ fs_models s) then Ret s
        else
          '(last, h1) ← joinWith fuel j target None jt (fs_heap s);
          lcell ← deref (joinModels h1) last;
          let h2 := set_joinModel last
            (mkJoinModel (jm_model lcell) true (jm_join lcell)) h1 in
          md ← deref_model (Some target);
          Ret (mkFState ({[ target ]} ∪ fs_models s)
                        (fs_methods s ++ [fields_Methods (fields md)])%list
                        h2)
    end.

(** The type a qualified field name starts with. *)
Definition field_type (field : string) : string :=
  slice field 0 (Z.to_nat (IndexByte field pipe)).

(** The model that the chain names [typ], if any, is registered, and
    the references to it are joins in the heap. *)
Definition joinable (h : heap) (nodes : list addr) (typ : string) : Prop :=
  forall target, named_of h typ nodes = Some target ->
    is_Some (models !! target)
    /\ Forall (valid_join h) (candidates_of h target nodes).

(** A reference to [target] as the reference graph holds it: a join
    to a join model of [target] that has no join of its own. *)
Definition direct_reference (h : heap) (target : modelPtr) (ja : addr)
    : Prop :=
  exists jc cm,
    joins h !! ja = Some jc
    /\ joinModels h !! join_model jc = Some cm
    /\ jm_model cm = Some target
    /\ jm_join cm = None.

(** The model that the chain names [typ], if any, is registered, and
    the references to it are direct. *)
Definition joinable_directly (h : heap) (nodes : list addr) (typ : string)
    : Prop :=
  forall target, named_of h typ nodes = Some target ->
    is_Some (models !! target)
    /\ Forall (direct_reference h target) (candidates_of h target nodes).


(** [joinWithSort], over the field names of the sort keys. *)
Fixpoint joinWithSort (fuel : nat) (j : addr) (sort : list string)
    (jt : JoinType) (s : fstate) : outcome fstate :=
  match sort with
  | [] => Ret s
  | v :: rest =>
      s' ← joinWithField fuel j v jt s;
      joinWithSort fuel j rest jt s'
  end.

(** [model.Map] *)
Definition lookup_qname (m : model) (qname : string) : outcome (string * rtype) :=
  match QNameMap (fields m) !! qname with
  | Some n =>
      qn ← deref (QuotedNames (fields m)) n;
      t ← deref (Types (fields m)) n;
      Ret (qn, t)
  | None => Fail (errCantMap qname)
  end.

Definition model_Map (m : model) (qname : string) : outcome (string * rtype) :=
  let sep := IndexByte qname pipe in
  if (0 <=? sep)%Z then
    let name' := slice qname 0 (Z.to_nat sep) in
    if negb (String.eqb name' (name m)) && negb (String.eqb name' (shortName m))
    then Fail (errNotThisModel name')
    else lookup_qname m (slice_from qname (Z.to_nat sep + 1))
  else lookup_qname m qname.

(** The loop of [joinModel.Map]: the matches along the chain. *)
Fixpoint map_candidates (fuel : nat) (h : heap) (cur : addr) (qname : string)
    (candidates : list (string * rtype)) : outcome (list (string * rtype)) :=
  match fuel with
  | O => OutOfFuel
  | S fuel' =>
      c ← deref (joinModels h) cur;
      md ← deref_model (jm_model c);
      candidates ←
        match model_Map md qname with
        | Ret nt => Ret (candidates ++ [nt])%list
        | Fail _ => Ret candidates
        | Panic => Panic
        | OutOfFuel => OutOfFuel
        end;
      match jm_join c with
      | None => Ret candidates
      | Some ja =>
          jc ← deref (joins h) ja;
          map_candidates fuel' h (join_model jc) qname candidates
      end
  end.

Definition joinModel_Map (fuel : nat) (h : heap) (j : addr) (qname : string)
    : outcome (string * rtype) :=
  candidates ← map_candidates fuel h j qname [];
  match candidates with
  | [] => Fail (errCantMap qname)
  | [c] => Ret c
  | _ => Fail (errAmbiguous qname)
  end.

(** *** Field mapping, as the specification words it *)

(** The column and the type of the field that [md] knows as [fname]. *)
Definition field_of (md : model) (fname : string) : option (string * rtype) :=
  match QNameMap (fields md) !! fname with
  | Some n =>
      match QuotedNames (fields md) !! n, Types (fields md) !! n with
      | Some qn, Some t => Some (qn, t)
      | _, _ => None
      end
  | None => None
  end.

(** The name map of a model points into its columns and types, for
    every registered model. *)
Definition fields_ok (md : model) : Prop :=
  map_Forall (fun _ n =>
                n < length (QuotedNames (fields md))
                /\ n < length (Types (fields md)))
             (QNameMap (fields md)).

Definition catalog_fields_ok : Prop :=
  map_Forall (fun _ md => fields_ok md) models.

#[export] Instance fields_ok_dec md : Decision (fields_ok md).
Proof. unfold fields_ok. apply _. Defined.

#[export] Instance catalog_fields_ok_dec : Decision catalog_fields_ok.
Proof. unfold catalog_fields_ok. apply _. Defined.

(** [typ] is the name or the short name of [md]. *)
Definition answers_to (md : model) (typ : string) : bool :=
  String.eqb typ (name md) || String.eqb typ (shortName md).

(** The matches for [fname] along the chain, among all models or
    among those that answer to [typ]. *)
Definition matches (h : heap) (nodes : list addr) (typ : option string)
    (fname : string) : list (string * rtype) :=
  omap (fun a =>
          match node_model h a with
          | Some md =>
              if match typ with Some t => answers_to md t | None => true end
              then field_of md fname else None
          | None => None
          end) nodes.

(** [sortModels.less].  The fuel bounds the depth of the recursion. *)
Fixpoint less (fuel : nat) (mi mj : modelPtr) : outcome bool :=
  match fuel with
  | O => OutOfFuel
  | S fuel' =>
      m ← deref_model (Some mi);
      (fix refs_loop (refs : list Reference) : outcome bool :=
         match refs with
         | [] => Ret true
         | v :: rest =>
             if bool_decide (ref_Model v = mj) then Ret false
             else if negb (bool_decide (ref_Model v = mi)) then
               b ← less fuel' (ref_Model v) mj;
               if b : bool then refs_loop rest else Ret false
             else refs_loop rest
         end) (References (fields m))
  end.

(** *** The order of models, as the specification words it *)

(** [a] references [b] directly. *)
Definition refers (a b : modelPtr) : Prop :=
  exists md, models !! a = Some md
             /\ b ∈ (ref_Model <$> References (fields md)).

(** [b] is directly or transitively referenced by [a]. *)
Definition reaches (a b : modelPtr) : Prop := tc refers a b.

(** The references lead to registered models, and, apart from the
    references of a model to itself, lead downwards in some numbering
    of the models: there is no cycle through two or more models. *)
Definition references_closed : Prop :=
  map_Forall (fun _ md =>
                Forall (fun v => is_Some (models !! ref_Model v))
                       (References (fields md)))
             models.

Definition numbered_downwards (rank : modelPtr -> nat) : Prop :=
  map_Forall (fun a md =>
                Forall (fun v => ref_Model v <> a ->
                                 rank (ref_Model v) < rank a)
                       (References (fields md)))
             models.

#[export] Instance references_closed_dec : Decision references_closed.
Proof. unfold references_closed. apply _. Defined.

#[export] Instance numbered_downwards_dec rank :
  Decision (numbered_downwards rank).
Proof. unfold numbered_downwards. apply _. Defined.

End Catalog.

(** [jm.skip = b] for the join model at [a]; nothing for a nil pointer. *)
Definition set_skip (a : addr) (b : bool) (h : heap) : heap :=
  match joinModels h !! a with
  | Some c => set_joinModel a (mkJoinModel (jm_model c) b (jm_join c)) h
  | None => h
  end.

(** [h'] is [h] after an explicit join of [target] under condition [q]:
    a new join model for [target], not skipped and without a join of its
    own, hangs on the tail [t] of the chain by a new join of type [jt]
    with condition [q]; nothing else changed. *)
Definition hung (h : heap) (nodes : list addr) (target : modelPtr) (q : Q)
    (jt : JoinType) (added : addr) (h' : heap) : Prop :=
  exists t tc ja,
    last nodes = Some t
    /\ joinModels h !! t = Some tc
    /\ added = length (joinModels h)
    /\ ja = length (joins h)
    /\ joinModels h' !! added = Some (mkJoinModel (Some target) false None)
    /\ joinModels h' !! t
       = Some (mkJoinModel (jm_model tc) (jm_skip tc) (Some ja))
    /\ joins h' !! ja = Some (mkJoin added jt (Some q))
    /\ (forall a, a < length (joinModels h) -> a <> t ->
          joinModels h' !! a = joinModels h !! a)
    /\ (forall a, a < length (joins h) -> joins h' !! a = joins h !! a).

(** *** A catalog to run the resolver on

    Three models: [Event] references [User] and [Place], and [User]
    references [Place] too.  The heap starts with the joins of these
    references and with the root of a query on [Event]. *)
Definition Event : modelPtr := 0.
Definition User : modelPtr := 1.
Definition Place : modelPtr := 2.

Definition no_fields : Fields := mkFields ∅ [] [] [] 0.

Definition catalog : gmap modelPtr model :=
  {[ Event := mkModel "Event" "Ev" "event"
       (mkFields {[ "Id" := 0; "Name" := 1 ]} ["event.id"; "event.name"]
                 ["int"; "string"]
                 [mkReference User "UserId"; mkReference Place "PlaceId"] 10)
       {[ User := [0]; Place := [1] ]}
       {[ "User" := User; "Place" := Place ]};
     User := mkModel "User" "Us" "user"
       (mkFields {[ "Id" := 0; "Name" := 1 ]} ["user.id"; "user.name"]
                 ["int"; "string"]
                 [mkReference Place "PlaceId"] 11)
       {[ Place := [2] ]}
       {[ "Place" := Place ]};
     Place := mkModel "Place" "Pl" "place"
       (mkFields {[ "Id" := 0; "City" := 1 ]} ["place.id"; "place.city"]
                 ["int"; "string"] [] 12)
       ∅ ∅ ]}.

Definition root : addr := 3.

Definition heap0 : heap :=
  mkHeap
    [ mkJoinModel (Some User) false None;
      mkJoinModel (Some Place) false None;
      mkJoinModel (Some Place) false None;
      mkJoinModel (Some Event) false None ]
    [ mkJoin 0 InnerJoin (Some (Eq "Event|UserId" (IField "User|Id")));
      mkJoin 1 InnerJoin (Some (Eq "Event|PlaceId" (IField "Place|Id")));
      mkJoin 2 InnerJoin (Some (Eq "User|PlaceId" (IField "Place|Id"))) ].

(** The heap after [Event] was joined with [User]: the chain is
    [root -> 4]. *)
Definition heap1 : heap :=
  mkHeap
    [ mkJoinModel (Some User) false None;
      mkJoinModel (Some Place) false None;
      mkJoinModel (Some Place) false None;
      mkJoinModel (Some Event) false (Some 3);
      mkJoinModel (Some User) false None ]
    [ mkJoin 0 InnerJoin (Some (Eq "Event|UserId" (IField "User|Id")));
      mkJoin 1 InnerJoin (Some (Eq "Event|PlaceId" (IField "Place|Id")));
      mkJoin 2 InnerJoin (Some (Eq "User|PlaceId" (IField "Place|Id")));
      mkJoin 4 LeftJoin (Some (Eq "Event|UserId" (IField "User|Id"))) ].

(** The state [joinWithField] starts from in the examples. *)
Definition fstate0 : fstate := mkFState ∅ [] heap0.

(** [heap1] with the references from [Event] and from [User] to [Place]
    comparing with the values [v1] and [v2]. *)
Definition heap_values (v1 v2 : iface) : heap :=
  mkHeap
    (joinModels heap1)
    [ mkJoin 0 InnerJoin (Some (Eq "Event|UserId" (IField "User|Id")));
      mkJoin 1 InnerJoin (Some (Eq "Event|PlaceId" v1));
      mkJoin 2 InnerJoin (Some (Eq "User|PlaceId" v2));
      mkJoin 4 LeftJoin (Some (Eq "Event|UserId" (IField "User|Id"))) ].



(** Two models that reference each other, and a third one apart. *)
Definition cyclic : gmap modelPtr model :=
  {[ 0 := mkModel "Author" "" "author"
            (mkFields ∅ [] [] [mkReference 1 "BookId"] 0) ∅ ∅;
     1 := mkModel "Book" "" "book"
            (mkFields ∅ [] [] [mkReference 0 "AuthorId"] 0) ∅ ∅;
     2 := mkModel "Shelf" "" "shelf" no_fields ∅ ∅ ]}.

(** The numbering of [catalog]: [Event] above [User] above [Place]. *)
Definition catalog_rank (p : modelPtr) : nat := 2 - p.

(** The model that [catalog] registers as [Event]. *)
Definition event_model : model :=
  default (mkModel "" "" "" no_fields ∅ ∅) (catalog !! Event).

(** Two models that reference a third one and not each other. *)
Definition siblings : gmap modelPtr model :=
  {[ 0 := mkModel "Home" "" "home"
            (mkFields ∅ [] [] [mkReference 2 "CityId"] 0) ∅ ∅;
     1 := mkModel "Office" "" "office"
            (mkFields ∅ [] [] [mkReference 2 "CityId"] 0) ∅ ∅;
     2 := mkModel "City" "" "city" no_fields ∅ ∅ ]}.

End Orm.

(** * Properties of the query executor *)

Module SqlFacts.
Import Go Sql.
Local Open Scope list_scope.

Section WithCollaborators.
Variable placeholder : nat -> string.
Variable checksum : string -> N.
Variable Prepare_r : list call -> string -> option Stmt * option error.
Variable Begin_r : list call -> Tx + error.
Variable err_r : list call -> call -> option error.
Variable Stmt_r : list call -> Tx -> Stmt -> Stmt.
Variable Result : Type.
Variable run_r : list call -> call -> Result.

Local Abbreviation preparedStmt := (preparedStmt checksum Prepare_r Stmt_r).
Local Abbreviation bound_stmt := (bound_stmt Stmt_r).
Local Abbreviation run := (run checksum Prepare_r Stmt_r run_r).
Local Abbreviation Close := (Close err_r).
Local Abbreviation Commit := (Commit err_r).
Local Abbreviation Rollback := (Rollback err_r).
Local Abbreviation Begin := (Begin Begin_r).

Lemma history_log c w : history (log c w) = history w ++ [c].
Proof. reflexivity. Qed.

Lemma caches_log c w : caches (log c w) = caches w.
Proof. reflexivity. Qed.

Lemma cache_lookup_log d c w key :
  cache_lookup d (log c w) key = cache_lookup d w key.
Proof. reflexivity. Qed.

(** A hit on the key with the same text: the cached statement, bound
    to the transaction when there is one, and no call to [Prepare]. *)
Lemma preparedStmt_hit d s w e :
  cache_lookup d w (checksum s) = Some e ->
  ce_sql e = s ->
  preparedStmt d s w
  = (Some (bound_stmt d (ce_stmt e) w).1, d, (bound_stmt d (ce_stmt e) w).2).
Proof.
  intros Hl He. unfold Sql.preparedStmt. rewrite Hl.
  rewrite <- He, String.eqb_refl. by destruct (bound_stmt _ _ _).
Qed.

(** What [cache_store] leaves behind. *)
Lemma cache_store_lookup d key e w :
  valid_cache d w ->
  exists d' w',
    cache_store d key e w = (d', w')
    /\ cache_lookup d' w' key = Some e
    /\ history w' = history w
    /\ tx d' = tx d /\ conn d' = conn d /\ sqlDb d' = sqlDb d
    /\ txDone d' = txDone d.
Proof.
  intros Hr. unfold cache_store, cache_lookup.
  destruct (cache d) as [r|] eqn:Hc; eexists _, _; (split; [reflexivity|]);
    simpl.
  - rewrite Hc. specialize (Hr r Hc).
    destruct (lookup_lt_is_Some_2 (caches w) r Hr) as [m Hm].
    rewrite list_lookup_alter_eq, Hm. simpl.
    by rewrite lookup_insert_eq.
  - rewrite lookup_app_r by lia. rewrite Nat.sub_diag. simpl.
    by rewrite lookup_singleton_eq.
Qed.

(** Without a hit on the same text, [preparedStmt] prepares afresh. *)
Lemma preparedStmt_fresh d s w :
  valid_cache d w ->
  (forall e, cache_lookup d w (checksum s) = Some e -> ce_sql e <> s) ->
  prepares_afresh checksum Prepare_r Stmt_r d s w (preparedStmt d s w).
Proof.
  intros Hv Hmiss. unfold prepares_afresh, Sql.preparedStmt.
  assert (Hfresh :
    match cache_lookup d w (checksum s) with
    | Some cached => String.eqb (ce_sql cached) s = false
    | None => True
    end).
  { destruct (cache_lookup d w (checksum s)) as [e|] eqn:Hl; [|done].
    apply String.eqb_neq. by apply Hmiss. }
  destruct (Prepare_r (history w) s) as [[stmt|] err]; simpl.
  - destruct (cache_store_lookup d (checksum s) (CacheEntry s stmt)
                (log (SqlDbPrepare (sqlDb d) s) w))
      as (d' & w' & Hst & Hl & Hh & Htx & Hconn & Hdb & Hdone).
    { intros r Hr. rewrite caches_log. by apply Hv. }
    assert (Hb : exists w'',
      Sql.bound_stmt Stmt_r d' stmt w'
      = (match tx d with
         | Some t => Stmt_r (history w ++ [SqlDbPrepare (sqlDb d) s]) t stmt
         | None => stmt
         end, w'')
      /\ cache_lookup d' w'' (checksum s) = Some (CacheEntry s stmt)
      /\ history w''
         = history w ++ SqlDbPrepare (sqlDb d) s
             :: match tx d with Some t => [TxStmt t stmt] | None => [] end).
    { unfold Sql.bound_stmt. rewrite Htx, Hh, history_log.
      destruct (tx d) as [t|]; eexists; (split; [reflexivity|]).
      - rewrite cache_lookup_log, history_log, Hh, history_log.
        split; [done|]. by rewrite <- app_assoc.
      - done. }
    destruct Hb as (w'' & Hb & Hl' & Hh').
    exists d', w''.
    destruct (cache_lookup d w (checksum s)) as [e|];
      [rewrite Hfresh|]; rewrite Hst, Hb; done.
  - destruct (cache_lookup d w (checksum s)) as [e|];
      [rewrite Hfresh|]; done.
Qed.

(** C4.  A lookup in the statement cache goes by the 32-bit checksum of
    the text, and the entry found is used only if the text stored with it
    equals the text looked up: then the cached statement is returned
    (bound to the transaction when there is one) and [Prepare] is not
    called.  If the entry holds another text, as after a collision of
    checksums, or if there is no entry, [Prepare] is called with the
    text looked up, and what is returned is that fresh statement, never
    the cached one. *)
Theorem preparedStmt_reuses_only_identical_text d s w :
  valid_cache d w ->
  match cache_lookup d w (checksum s) with
  | Some e =>
      if decide (ce_sql e = s) then
        preparedStmt d s w
        = (Some (bound_stmt d (ce_stmt e) w).1, d,
           (bound_stmt d (ce_stmt e) w).2)
        /\ (forall c, c ∈ history (preparedStmt d s w).2 ->
                      c ∈ history w \/ exists t st, c = TxStmt t st)
      else prepares_afresh checksum Prepare_r Stmt_r d s w (preparedStmt d s w)
  | None => prepares_afresh checksum Prepare_r Stmt_r d s w (preparedStmt d s w)
  end.
Proof.
  intros Hv.
  destruct (cache_lookup d w (checksum s)) as [e|] eqn:Hl.
  - destruct (decide (ce_sql e = s)) as [He|He].
    + rewrite (preparedStmt_hit d s w e Hl He). split; [done|].
      simpl. unfold Sql.bound_stmt.
      destruct (tx d) as [t|]; simpl; intros c Hc; [|by left].
      apply elem_of_app in Hc as [Hc|Hc]; [by left|].
      apply list_elem_of_singleton in Hc. right. eauto.
    + apply preparedStmt_fresh; [done|]. intros e' He'.
      rewrite Hl in He'. by injection He' as <-.
  - apply preparedStmt_fresh; [done|]. intros e' He'.
    by rewrite Hl in He'.
Qed.

Lemma run_falls_back o d text args w :
  args <> [] ->
  prepare_fails checksum Prepare_r d text args w ->
  run o d text args w = fallback run_r o d text args w.
Proof.
  intros Hargs [Hmiss Hprep]. unfold Sql.run, fallback.
  destruct args as [|a args]; [done|]. simpl Nat.ltb. cbv iota.
  unfold Sql.preparedStmt.
  rewrite cache_lookup_log, history_log, Hprep.
  assert (Hfresh :
    match cache_lookup d w (checksum text) with
    | Some cached => String.eqb (ce_sql cached) text = false
    | None => True
    end).
  { destruct (cache_lookup d w (checksum text)) as [e|] eqn:Hl; [|done].
    apply String.eqb_neq. by apply Hmiss. }
  destruct (cache_lookup d w (checksum text)) as [e|];
    [rewrite Hfresh|]; unfold conn_run, log; simpl;
    by rewrite <- !app_assoc.
Qed.

(** C5.  With arguments to bind and no usable cache entry, when
    [Prepare] returns no statement, each of [Exec], [Query] and
    [QueryRow] makes the same call without preparing on the handle's
    connection, and returns what that call returns: the error of
    [Prepare] is dropped, and the caller sees an error only if the call
    on the connection reports one. *)
Theorem prepare_failure_falls_back_to_connection d query args w :
  args <> [] ->
  (prepare_fails checksum Prepare_r d (rewritten placeholder d query) args w ->
   Exec placeholder checksum Prepare_r Stmt_r run_r d query args w
   = fallback run_r OpExec d (rewritten placeholder d query) args w)
  /\ (prepare_fails checksum Prepare_r d (rewritten placeholder d query) args w ->
      Query placeholder checksum Prepare_r Stmt_r run_r d query args w
      = fallback run_r OpQuery d (rewritten placeholder d query) args w)
  /\ (prepare_fails checksum Prepare_r d
        (replacePlaceholders placeholder (rewritten placeholder d query)) args w ->
      QueryRow placeholder checksum Prepare_r Stmt_r run_r d query args w
      = fallback run_r OpQueryRow d
          (replacePlaceholders placeholder (rewritten placeholder d query)) args w).
Proof.
  intros Hargs. repeat split; intros Hf;
    unfold Exec, Query, QueryRow; by apply run_falls_back.
Qed.

(** One [Close] of a handle whose transaction is open rolls it back,
    and leaves [txDone] as it was. *)
Lemma Close_open_transaction d t w :
  tx d = Some t -> txDone d = false ->
  Close d w = (err_r (history w) (TxRollback t), d, log (TxRollback t) w).
Proof. intros Ht Hd. unfold Sql.Close. by rewrite Ht, Hd. Qed.

(** So a second [Close] asks for the rollback again. *)
Lemma Close_twice d t w :
  tx d = Some t -> txDone d = false ->
  history (Close (Close d w).1.2 (Close d w).2).2
  = history w ++ [TxRollback t; TxRollback t].
Proof.
  intros Ht Hd. rewrite (Close_open_transaction d t w Ht Hd). simpl.
  rewrite (Close_open_transaction d t _ Ht Hd). simpl.
  by rewrite <- app_assoc.
Qed.

(** After [Commit] or [Rollback], [Close] does nothing. *)
Lemma Close_after_Commit d t w :
  tx d = Some t ->
  Close (Commit d w).1.2 (Commit d w).2
  = (None, (Commit d w).1.2, (Commit d w).2).
Proof. intros Ht. unfold Sql.Commit, Sql.Close. by rewrite Ht; simpl; rewrite Ht. Qed.

Lemma Close_after_Rollback d t w :
  tx d = Some t ->
  Close (Rollback d w).1.2 (Rollback d w).2
  = (None, (Rollback d w).1.2, (Rollback d w).2).
Proof. intros Ht. unfold Sql.Rollback, Sql.Close. by rewrite Ht; simpl; rewrite Ht. Qed.

(** C7.  [Begin] on a handle inside a transaction fails with
    [ErrInTransaction]; [Commit] and [Rollback] on a handle outside one
    fail with [ErrNotInTransaction]; none of these calls anything or
    changes anything.  [Begin] on a handle outside a transaction never
    changes that handle: when database/sql starts a transaction the
    result is a new handle, a copy with its own [tx] and [conn], and
    when it reports an error instead, that error is returned.
    Finishing the transaction on the new handle sets the [txDone] of
    the new handle only. *)
Theorem transaction_state_is_checked d w :
  (forall t, tx d = Some t ->
     Begin d w = ((None, Some ErrInTransaction), d, w))
  /\ (tx d = None ->
      Commit d w = (Some ErrNotInTransaction, d, w)
      /\ Rollback d w = (Some ErrNotInTransaction, d, w))
  /\ (Begin d w).1.2 = d
  /\ (tx d = None ->
      (forall t, Begin_r (history w) = inl t ->
         let dc := mkDB (sqlDb d) (Some t) (txDone d) (ConnTx t)
                        (replacesPlaceholders d) (cache d) in
         Begin d w = ((Some dc, None), d, log (SqlDbBegin (sqlDb d)) w)
         /\ (Commit dc (log (SqlDbBegin (sqlDb d)) w)).1.2 = set_txDone dc
         /\ (Rollback dc (log (SqlDbBegin (sqlDb d)) w)).1.2 = set_txDone dc)
      /\ (forall e, Begin_r (history w) = inr e ->
            Begin d w = ((None, Some e), d, log (SqlDbBegin (sqlDb d)) w))).
Proof.
  split; [|split; [|split]].
  - intros t Ht. unfold Sql.Begin. by rewrite Ht.
  - intros Ht. unfold Sql.Commit, Sql.Rollback. by rewrite Ht.
  - unfold Sql.Begin. destruct (tx d); [done|].
    by destruct (Begin_r (history w)) as [t|e].
  - intros Ht. split.
    + intros t Hb. unfold Sql.Begin. by rewrite Ht, Hb.
    + intros e Hb. unfold Sql.Begin. by rewrite Ht, Hb.
Qed.

(** The text [Query] passes on is rewritten once if the backend asks
    for it; the text [QueryRow] passes on is rewritten once more. *)
Lemma Query_text d query w :
  (Query placeholder checksum Prepare_r Stmt_r run_r d query [] w).1.1
  = run_r (history w ++ [Debugq (rewritten placeholder d query) []])
          (ConnRun OpQuery (conn d) (rewritten placeholder d query) []).
Proof. reflexivity. Qed.

Lemma QueryRow_text d query w :
  (QueryRow placeholder checksum Prepare_r Stmt_r run_r d query [] w).1.1
  = run_r (history w ++ [Debugq (replacePlaceholders placeholder
                                   (rewritten placeholder d query)) []])
          (ConnRun OpQueryRow (conn d)
             (replacePlaceholders placeholder (rewritten placeholder d query)) []).
Proof. reflexivity. Qed.

End WithCollaborators.

(** The text [buckeroo] has the checksum of [plumless]; looking it up in
    a cache that holds [plumless] finds that entry and prepares afresh. *)
Lemma preparedStmt_collision_witness :
  valid_cache caching cached_plumless
  /\ cache_lookup caching cached_plumless (ChecksumIEEE "buckeroo")
     = Some (CacheEntry "plumless" 7)
  /\ prepares_afresh ChecksumIEEE prepares rebinds caching "buckeroo"
       cached_plumless
       (preparedStmt ChecksumIEEE prepares rebinds caching "buckeroo"
          cached_plumless).
Proof.
  assert (Hv : valid_cache caching cached_plumless).
  { intros r Hr. injection Hr as <-. simpl. lia. }
  assert (Hl : cache_lookup caching cached_plumless (ChecksumIEEE "buckeroo")
               = Some (CacheEntry "plumless" 7)) by (vm_compute; reflexivity).
  split; [exact Hv|]. split; [exact Hl|].
  pose proof (preparedStmt_reuses_only_identical_text ChecksumIEEE prepares
                rebinds caching "buckeroo" cached_plumless Hv) as H.
  rewrite Hl in H. simpl in H.
  destruct (decide ("plumless" = "buckeroo")) as [He|_]; [discriminate He|].
  exact H.
Defined.

Lemma prepare_failure_witness :
  [IInt 1] <> []
  /\ prepare_fails ChecksumIEEE never_prepares plain "x = $1" [IInt 1] w0
  /\ Exec dollar ChecksumIEEE never_prepares rebinds echo plain "x = ?" [IInt 1] w0
     = (ConnRun OpExec (ConnDB 0) "x = $1" [IInt 1], plain,
        World [Debugq "x = $1" [IInt 1]; SqlDbPrepare 0 "x = $1";
               ConnRun OpExec (ConnDB 0) "x = $1" [IInt 1]] [])
  /\ Query dollar ChecksumIEEE never_prepares rebinds echo plain "x = ?" [IInt 1] w0
     = (ConnRun OpQuery (ConnDB 0) "x = $1" [IInt 1], plain,
        World [Debugq "x = $1" [IInt 1]; SqlDbPrepare 0 "x = $1";
               ConnRun OpQuery (ConnDB 0) "x = $1" [IInt 1]] [])
  /\ QueryRow dollar ChecksumIEEE never_prepares rebinds echo plain "x = ?" [IInt 1] w0
     = (ConnRun OpQueryRow (ConnDB 0) "x = $1" [IInt 1], plain,
        World [Debugq "x = $1" [IInt 1]; SqlDbPrepare 0 "x = $1";
               ConnRun OpQueryRow (ConnDB 0) "x = $1" [IInt 1]] []).
Proof.
  assert (Hargs : [IInt 1] <> []) by discriminate.
  assert (Hf : prepare_fails ChecksumIEEE never_prepares plain "x = $1" [IInt 1] w0).
  { split; [intros e He; discriminate He | reflexivity]. }
  destruct (prepare_failure_falls_back_to_connection dollar ChecksumIEEE
              never_prepares rebinds _ echo plain "x = ?" [IInt 1] w0 Hargs)
    as (HE & HQ & HR).
  split; [exact Hargs|]. split; [exact Hf|].
  split; [exact (HE Hf)|]. split; [exact (HQ Hf)|]. exact (HR Hf).
Defined.

Lemma transaction_state_witness :
  tx in_tx = Some 1
  /\ Begin begins in_tx w0 = ((None, Some ErrInTransaction), in_tx, w0)
  /\ tx plain = None
  /\ Commit no_error plain w0 = (Some ErrNotInTransaction, plain, w0)
  /\ Rollback no_error plain w0 = (Some ErrNotInTransaction, plain, w0)
  /\ begins (history w0) = inl 0
  /\ Begin begins plain w0
     = ((Some (mkDB 0 (Some 0) false (ConnTx 0) true None), None), plain,
        World [SqlDbBegin 0] []).
Proof.
  destruct (transaction_state_is_checked begins no_error in_tx w0)
    as (HB & _).
  destruct (transaction_state_is_checked begins no_error plain w0)
    as (_ & HC & _ & HN).
  split; [reflexivity|]. split; [exact (HB 1 eq_refl)|].
  split; [reflexivity|].
  split; [exact (proj1 (HC eq_refl))|]. split; [exact (proj2 (HC eq_refl))|].
  split; [reflexivity|].
  exact (proj1 (proj1 (HN eq_refl) 0 eq_refl)).
Defined.

(** A quote that is not followed by a quote toggles the state, whatever
    comes before it: also when it is the second quote of a doubled pair. *)
Lemma rp_step_quote_toggles placeholder query last st ii :
  byte_at query (ii + 1) <> Some squote ->
  rp_inQuote (rp_step placeholder query last st ii squote)
  = negb (rp_inQuote st).
Proof.
  intros Hnext. unfold rp_step. simpl.
  rewrite (bool_decide_eq_false_2 _ Hnext). simpl.
  by rewrite orb_true_r.
Qed.

(** A question mark inside a literal without doubled quotes stays. *)
Example replacePlaceholders_skips_literal :
  replacePlaceholders dollar "SELECT * FROM t WHERE s = '?' AND x = ?"
  = "SELECT * FROM t WHERE s = '?' AND x = $1"
  /\ replacePlaceholders dollar "SELECT 1" = "SELECT 1".
Proof. split; reflexivity. Qed.

(** C2.  On the text ['It''s ?'] the scan leaves the literal at the
    second quote of the doubled pair: the state after ['It''] is outside
    a literal, and the question mark that follows is replaced. *)
Theorem replacePlaceholders_leaves_literal_at_doubled_quote :
  rp_inQuote (rp_loop dollar "'It''s ?'" 8 0
                (list_ascii_of_string "'It''") rp_init) = false
  /\ replacePlaceholders dollar "'It''s ?'" = "'It''s $1'".
Proof. split; reflexivity. Qed.

(** C6.  Closing twice a handle whose transaction was neither committed
    nor rolled back calls [Rollback] on the transaction twice: the first
    [Close] does not set [txDone], and with a transaction that behaves
    as database/sql documents the second [Close] returns [ErrTxDone]. *)
Theorem Close_twice_rolls_back_twice :
  let r1 := Close tx_done_r in_tx w0 in
  let r2 := Close tx_done_r r1.1.2 r1.2 in
  r1 = (None, in_tx, World [TxRollback 1] [])
  /\ r2 = (Some ErrTxDone, in_tx, World [TxRollback 1; TxRollback 1] []).
Proof. split; reflexivity. Qed.

(** C10.  For a backend that does not rewrite placeholders, [Query]
    passes the text on as it is and [QueryRow] passes on the rewritten
    text; for a backend that rewrites to [?1, ?2, ...], [QueryRow]
    rewrites the text that [Query] passes on a second time. *)
Theorem QueryRow_rewrites_once_more_than_Query :
  (Query dollar ChecksumIEEE prepares rebinds echo verbatim "SELECT ?" [] w0).1.1
  = ConnRun OpQuery (ConnDB 0) "SELECT ?" []
  /\ (QueryRow dollar ChecksumIEEE prepares rebinds echo verbatim "SELECT ?" [] w0).1.1
     = ConnRun OpQueryRow (ConnDB 0) "SELECT $1" []
  /\ (Query numbered ChecksumIEEE prepares rebinds echo plain "SELECT ?" [] w0).1.1
     = ConnRun OpQuery (ConnDB 0) "SELECT ?1" []
  /\ (QueryRow numbered ChecksumIEEE prepares rebinds echo plain "SELECT ?" [] w0).1.1
     = ConnRun OpQueryRow (ConnDB 0) "SELECT ?11" [].
Proof. repeat split; reflexivity. Qed.

End SqlFacts.

(** * Properties of the join resolver and the field mapper *)

Module OrmFacts.
Import Go Orm.
Local Open Scope list_scope.

(** ** Qualified names *)

Lemma IndexByte_from_absent s c i :
  contains c s = false -> IndexByte_from s c i = (-1)%Z.
Proof.
  revert i. induction s as [|a s IH]; intros i; simpl; [done|].
  destruct (Ascii.eqb a c); [done|]. simpl. apply IH.
Qed.

Lemma IndexByte_from_present s c rest i :
  contains c s = false ->
  IndexByte_from (s ++ String c rest)%string c i
  = (i + Z.of_nat (String.length s))%Z.
Proof.
  revert i. induction s as [|a s IH]; intros i; simpl.
  - intros _. rewrite Ascii.eqb_refl. lia.
  - destruct (Ascii.eqb a c); [done|]. simpl. intros Hn.
    rewrite IH by done. lia.
Qed.

Lemma substring_prefix s rest :
  String.substring 0 (String.length s) (s ++ rest)%string = s.
Proof. induction s as [|a s IH]; simpl; [by destruct rest | by rewrite IH]. Qed.

Lemma substring_whole s : String.substring 0 (String.length s) s = s.
Proof. induction s as [|a s IH]; simpl; [done | by rewrite IH]. Qed.

Lemma substring_suffix s rest n :
  String.substring (String.length s) n (s ++ rest)%string
  = String.substring 0 n rest.
Proof. induction s as [|a s IH]; simpl; done. Qed.

Lemma length_string_app (s t : string) :
  String.length (s ++ t)%string = String.length s + String.length t.
Proof. induction s as [|a s IH]; simpl; [done | by rewrite IH]. Qed.

Lemma slice_prefix s rest : slice (s ++ rest)%string 0 (String.length s) = s.
Proof. unfold slice. rewrite Nat.sub_0_r. apply substring_prefix. Qed.

Lemma slice_from_suffix s c rest :
  slice_from (s ++ String c rest)%string (String.length s + 1) = rest.
Proof.
  unfold slice_from. rewrite length_string_app. simpl.
  replace (String.length s + S (String.length rest) - (String.length s + 1))
    with (String.length rest) by lia.
  replace (String.length s + 1) with (String.length (s ++ String c "")%string)
    by (rewrite length_string_app; simpl; lia).
  replace (s ++ String c rest)%string with ((s ++ String c "") ++ rest)%string.
  - rewrite substring_suffix. apply substring_whole.
  - clear. induction s as [|a s IH]; [done|].
    change (String a ((s ++ String c "") ++ rest)
            = String a (s ++ String c rest))%string.
    by rewrite IH.
Qed.

(** ** Heaps that grow *)

Definition extends (h h' : heap) : Prop :=
  joinModels h `prefix_of` joinModels h' /\ joins h `prefix_of` joins h'.

Lemma extends_refl h : extends h h.
Proof. by split. Qed.

Lemma extends_trans h1 h2 h3 : extends h1 h2 -> extends h2 h3 -> extends h1 h3.
Proof. intros [? ?] [? ?]. split; by etrans. Qed.

Lemma extends_alloc_joinModel c h : extends h (alloc_joinModel c h).2.
Proof. split; simpl; [by apply prefix_app_r | done]. Qed.

Lemma extends_alloc_join c h : extends h (alloc_join c h).2.
Proof. split; simpl; [done | by apply prefix_app_r]. Qed.

Lemma extends_joinModel h h' a c :
  extends h h' -> joinModels h !! a = Some c -> joinModels h' !! a = Some c.
Proof. intros [Hp _] Hl. by eapply prefix_lookup_Some. Qed.

Lemma extends_join h h' a c :
  extends h h' -> joins h !! a = Some c -> joins h' !! a = Some c.
Proof. intros [_ Hp] Hl. by eapply prefix_lookup_Some. Qed.

Lemma extends_length_joinModels h h' :
  extends h h' -> length (joinModels h) <= length (joinModels h').
Proof. intros [Hp _]. by apply prefix_length. Qed.

Lemma extends_length_joins h h' :
  extends h h' -> length (joins h) <= length (joins h').
Proof. intros [_ Hp]. by apply prefix_length. Qed.

Lemma deref_Some {A} (l : list A) a x : l !! a = Some x -> deref l a = Ret x.
Proof. intros H. unfold deref. by rewrite H. Qed.

(** ** Chains *)

(** A chain stays a chain when its nodes keep their joins and every
    join keeps its join model. *)
Lemma chain_transfer_join h h' a l :
  chain h a l ->
  (forall x c, x ∈ l -> joinModels h !! x = Some c ->
               exists c', joinModels h' !! x = Some c'
                          /\ jm_join c' = jm_join c) ->
  (forall x jc, joins h !! x = Some jc ->
                exists jc', joins h' !! x = Some jc'
                            /\ join_model jc' = join_model jc) ->
  chain h' a l.
Proof.
  intros Hc Hjm Hj. induction Hc as [a c Ha Hn | a c ja jc l Ha Hs Hja Hc IH].
  - destruct (Hjm a c) as (c' & Ha' & Hj'); [set_solver | done |].
    apply (chain_tail h' a c'); [exact Ha' | congruence].
  - destruct (Hj ja jc Hja) as (jc' & Hja' & Hm).
    destruct (Hjm a c) as (c' & Ha' & Hj'); [set_solver | done |].
    apply (chain_link h' a c' ja jc'); [exact Ha' | congruence | exact Hja' |].
    rewrite Hm. apply IH. intros x c0 Hx. apply Hjm. set_solver.
Qed.

Lemma chain_transfer h h' a l :
  chain h a l ->
  (forall x c, x ∈ l -> joinModels h !! x = Some c ->
               joinModels h' !! x = Some c) ->
  (forall x jc, joins h !! x = Some jc ->
                exists jc', joins h' !! x = Some jc'
                            /\ join_model jc' = join_model jc) ->
  chain h' a l.
Proof.
  intros Hc Hjm Hj. eapply chain_transfer_join; [done | | done].
  intros x c Hx Hc0. exists c. split; [by apply Hjm | done].
Qed.

Lemma chain_extends h h' a l : chain h a l -> extends h h' -> chain h' a l.
Proof.
  intros Hc He. eapply chain_transfer; [done | |].
  - intros x c _. by apply extends_joinModel.
  - intros x jc Hx. exists jc. split; [by eapply extends_join | done].
Qed.

Lemma chain_head h a l : chain h a l -> exists l', l = a :: l'.
Proof. intros [|]; eauto. Qed.

Lemma copy_of_extends h h1 h2 a a' :
  copy_of h h1 a a' -> extends h1 h2 -> copy_of h h2 a a'.
Proof.
  intros (c & c' & Ha & Ha' & Hm & Hs & Hj) He.
  exists c, c'. repeat (split; [done || by eapply extends_joinModel |]).
  destruct (jm_join c), (jm_join c'); try done.
  destruct Hj as (jc & jc' & ? & ? & ? & ?).
  exists jc, jc'. repeat split; try done. by eapply extends_join.
Qed.

(** Cloning a chain returns, given fuel for its length, a copy of it in
    fresh cells of a heap that extends the old one. *)
Lemma joinModel_clone_chain h a l :
  chain h a l ->
  forall fuel, length l <= fuel ->
  exists a' h' l',
    joinModel_clone fuel h a = Ret (a', h')
    /\ extends h h'
    /\ chain h' a' l'
    /\ Forall (fun x => length (joinModels h) <= x) l'
    /\ Forall2 (copy_of h h') l l'.
Proof.
  induction 1 as [a c Ha Hn | a c ja jc l Ha Hs Hja Hc IH];
    intros [|fuel] Hfuel; simpl in Hfuel; try lia; simpl.
  - rewrite (deref_Some _ _ _ Ha). simpl. rewrite Hn.
    set (c' := mkJoinModel (jm_model c) (jm_skip c) None).
    assert (Hnew : joinModels (alloc_joinModel c' h).2
                     !! length (joinModels h) = Some c').
    { simpl. by rewrite list_lookup_middle. }
    eexists _, _, [_]. split; [reflexivity|].
    split; [apply extends_alloc_joinModel|].
    split; [by eapply chain_tail|].
    split; [by repeat constructor|].
    constructor; [|constructor].
    exists c, c'. repeat (split; [done|]). by rewrite Hn.
  - rewrite (deref_Some _ _ _ Ha). simpl. rewrite Hs.
    rewrite (deref_Some _ _ _ Hja). simpl.
    destruct (IH fuel) as (m' & h1 & l1 & Hcl & He1 & Hc1 & Hf1 & Hcp1); [lia|].
    rewrite Hcl. simpl.
    set (jc' := mkJoin m' (join_jtype jc) (join_q jc)).
    set (h2 := mkHeap (joinModels h1) (joins h1 ++ [jc'])).
    set (c' := mkJoinModel (jm_model c) (jm_skip c) (Some (length (joins h1)))).
    set (h3 := (alloc_joinModel c' h2).2).
    assert (He12 : extends h1 h2) by apply (extends_alloc_join jc' h1).
    assert (He23 : extends h2 h3) by apply extends_alloc_joinModel.
    assert (He13 : extends h1 h3) by (by eapply extends_trans).
    assert (Hnew : joinModels h3 !! length (joinModels h1) = Some c').
    { simpl. by rewrite list_lookup_middle. }
    assert (Hnewj : joins h3 !! length (joins h1) = Some jc').
    { simpl. by rewrite list_lookup_middle. }
    exists (length (joinModels h1)), h3, (length (joinModels h1) :: l1).
    split; [reflexivity|].
    split; [by eapply extends_trans|].
    split.
    { eapply chain_link; [done | done | done |]. simpl.
      by eapply chain_extends. }
    split.
    { constructor; [by apply extends_length_joinModels | done]. }
    constructor.
    + exists c, c'. repeat (split; [done|]). rewrite Hs. simpl.
      exists jc, jc'. repeat split; try done.
    + eapply Forall2_impl; [done|]. intros x y Hxy.
      by eapply copy_of_extends.
Qed.

Lemma chain_head_cell h a l : chain h a l -> is_Some (joinModels h !! a).
Proof. intros [|]; eauto. Qed.

(** The last node of a chain has no join, and it is the only one. *)
Lemma chain_last h a l :
  chain h a l ->
  exists t tc, last l = Some t /\ joinModels h !! t = Some tc
               /\ jm_join tc = None.
Proof.
  induction 1 as [a c Ha Hn | a c ja jc l Ha Hs Hja Hc IH].
  - by exists a, c.
  - destruct IH as (t & tc & Hl & Ht & Hn). exists t, tc.
    split; [|done]. destruct (chain_head _ _ _ Hc) as [l' ->]. done.
Qed.

(** Hanging a chain on the tail of another. *)
Lemma chain_append h h' j nodes t ja jc l' :
  chain h j nodes ->
  last nodes = Some t ->
  (forall x c, x <> t -> joinModels h !! x = Some c ->
               joinModels h' !! x = Some c) ->
  (forall x jx, joins h !! x = Some jx ->
                exists jx', joins h' !! x = Some jx'
                            /\ join_model jx' = join_model jx) ->
  (exists tc, joinModels h' !! t = Some tc /\ jm_join tc = Some ja) ->
  joins h' !! ja = Some jc ->
  chain h' (join_model jc) l' ->
  chain h' j (nodes ++ l').
Proof.
  intros Hc Hl Hjm Hj (tc & Ht & Htj) Hja Hc'.
  induction Hc as [a c Ha Hn | a c ja0 jc0 l Ha Hs Hja0 Hc IH].
  - injection Hl as <-. simpl. by eapply chain_link.
  - destruct (chain_last _ _ _ Hc) as (t' & tc' & Hl' & Ht' & Hn').
    destruct (chain_head _ _ _ Hc) as [l0 ->].
    assert (t' = t) as -> by (simpl in Hl, Hl'; congruence).
    assert (a <> t) by (intros ->; congruence).
    destruct (Hj ja0 jc0 Hja0) as (jx' & Hjx' & Hm).
    simpl. eapply chain_link; [by apply Hjm | done | done |].
    rewrite Hm. by apply IH.
Qed.

Lemma prefix_lookup_eq {A} (l1 l2 : list A) i :
  l1 `prefix_of` l2 -> i < length l1 -> l2 !! i = l1 !! i.
Proof. intros [k ->] Hi. by rewrite lookup_app_l. Qed.

(** Attaching a clone of the reference [c] to the tail [t] of a chain. *)
Lemma attach_clone_appended h j nodes t c cc lc jt fuel :
  chain h j nodes ->
  last nodes = Some t ->
  joins h !! c = Some cc ->
  chain h (join_model cc) lc ->
  length lc <= fuel ->
  exists added h',
    attach_clone fuel h t c jt = Ret (added, h')
    /\ appended h j nodes c jt added h'.
Proof.
  intros Hc Hl Hcc Hlc Hfuel.
  destruct (chain_last _ _ _ Hc) as (t' & tc & Hl' & Ht & Htn).
  assert (t' = t) as -> by congruence. clear Hl'.
  destruct (joinModel_clone_chain _ _ _ Hlc fuel Hfuel)
    as (m' & h1 & l1 & Hcl & He & Hc1 & Hf1 & Hcp).
  unfold attach_clone, join_clone.
  rewrite (deref_Some _ _ _ Hcc). simpl. rewrite Hcl. simpl.
  pose proof (extends_joinModel _ _ _ _ He Ht) as Ht1.
  rewrite (deref_Some _ _ _ Ht1). simpl.
  rewrite (deref_Some _ (length (joins h1))
             (mkJoin m' (join_jtype cc) (join_q cc)))
    by (by rewrite list_lookup_middle).
  simpl.
  set (ja := length (joins h1)).
  set (jn := mkJoin m' jt (join_q cc)).
  set (tn := mkJoinModel (jm_model tc) (jm_skip tc) (Some ja)).
  set (h3 := set_join ja jn (set_joinModel t tn
               (mkHeap (joinModels h1)
                  (joins h1 ++ [mkJoin m' (join_jtype cc) (join_q cc)])))).
  assert (Htlt : t < length (joinModels h)) by (by eapply lookup_lt_Some).
  assert (Htlt1 : t < length (joinModels h1)) by (by eapply lookup_lt_Some).
  assert (Hjm3 : forall x, x <> t ->
            joinModels h3 !! x = joinModels h1 !! x).
  { intros x Hx. simpl. by rewrite list_lookup_insert_ne. }
  assert (Hj3 : forall x jx, joins h1 !! x = Some jx ->
            joins h3 !! x = Some jx).
  { intros x jx Hx. simpl.
    assert (x < ja) by (by eapply lookup_lt_Some).
    rewrite list_lookup_insert_ne by lia. by rewrite lookup_app_l. }
  assert (Ht3 : joinModels h3 !! t = Some tn).
  { simpl. by rewrite list_lookup_insert_eq. }
  assert (Hja3 : joins h3 !! ja = Some jn).
  { simpl. rewrite list_lookup_insert_eq; [done|].
    rewrite length_app. simpl. unfold ja. lia. }
  assert (Hfresh : Forall (fun x => x <> t) l1).
  { eapply Forall_impl; [exact Hf1|]. simpl. intros x Hx. lia. }
  assert (Hc3 : chain h3 m' l1).
  { eapply chain_transfer; [exact Hc1 | |].
    - intros x c0 Hx Hx1. rewrite Hjm3; [done|].
      rewrite Forall_forall in Hfresh. by apply Hfresh.
    - intros x jx Hx. exists jx. split; [by apply Hj3 | done]. }
  exists m', h3. split; [reflexivity|].
  exists t, tc, cc, lc, ja, l1.
  split; [done|]. split; [done|]. split; [done|]. split; [done|].
  split; [done|]. split; [done|].
  split; [by apply extends_length_joins|].
  split; [done|]. split; [done|].
  split.
  { clear -Hcp Hf1 Hjm3 Hj3 Htlt.
    induction Hcp as [|x y l l' (c0 & c0' & Hx & Hy & Hm & Hs & Hjn) _ IH];
      [constructor|].
    apply Forall_cons in Hf1 as [Hy1 Hf1].
    constructor; [|by apply IH].
    exists c0, c0'. split; [done|].
    split; [rewrite Hjm3; [done | lia]|].
    split; [done|]. split; [done|].
    destruct (jm_join c0), (jm_join c0'); try done.
    destruct Hjn as (jx & jx' & ? & ? & ? & ?).
    exists jx, jx'. repeat split; try done. by apply Hj3. }
  split.
  { eapply (chain_append h h3 j nodes t ja jn l1); try done.
    - intros x c0 Hx Hx0. rewrite Hjm3 by done.
      by eapply extends_joinModel.
    - intros x jx Hx. exists jx. split; [|done].
      apply Hj3. by eapply extends_join.
    - by exists tn. }
  split.
  - intros a Ha Hat. rewrite Hjm3 by done.
    apply prefix_lookup_eq; [apply He | done].
  - intros a Ha. simpl.
    pose proof (extends_length_joins _ _ He).
    rewrite list_lookup_insert_ne by (unfold ja; lia).
    rewrite lookup_app_l by lia.
    apply prefix_lookup_eq; [apply He | done].
Qed.

Section WithCatalog.
Variable models : gmap modelPtr model.

Lemma node_model_deref h a c md :
  joinModels h !! a = Some c -> node_model models h a = Some md ->
  deref_model models (jm_model c) = Ret md.
Proof.
  intros Ha. unfold node_model, deref_model. rewrite Ha.
  destruct (jm_model c); [|done]. by intros ->.
Qed.

(** The loop of the implicit join visits the whole chain. *)
Lemma collect_chain h j nodes target :
  chain h j nodes ->
  resolved models h nodes ->
  forall fuel acc, length nodes <= fuel ->
  exists t, last nodes = Some t
    /\ collect models fuel h j target acc
       = Ret (acc ++ candidates_of models h target nodes, t).
Proof.
  induction 1 as [a c Ha Hn | a c ja jc l Ha Hs Hja Hc IH];
    intros Hres [|fuel] acc Hfuel; simpl in Hfuel; try lia;
    apply Forall_cons in Hres as [[md Hmd] Hres]; simpl.
  - exists a. split; [done|].
    rewrite (deref_Some _ _ _ Ha). simpl.
    rewrite (node_model_deref _ _ _ _ Ha Hmd). simpl.
    by rewrite Hn, Hmd, app_nil_r.
  - destruct (IH Hres fuel
                (acc ++ default [] (modelReferences md !! target)))
      as (t & Hl & Hcol); [lia|].
    exists t. split.
    { destruct (chain_head _ _ _ Hc) as [l' ->]. done. }
    rewrite (deref_Some _ _ _ Ha). simpl.
    rewrite (node_model_deref _ _ _ _ Ha Hmd). simpl.
    rewrite Hs, (deref_Some _ _ _ Hja). simpl.
    by rewrite Hcol, Hmd, app_assoc.
Qed.

(** On the values of the model deep equality is equality. *)
Lemma DeepEqual_eq x y : DeepEqual x y = bool_decide (x = y).
Proof.
  destruct x as [|tx vx], y as [|ty vy]; try done.
  unfold DeepEqual. rewrite <- bool_decide_and. apply bool_decide_ext.
  split; [by intros [-> ->] | by intros [= -> ->]].
Qed.

Lemma all_equal_forallb h first_jm fm value rest :
  joinModels h !! first_jm = Some fm ->
  Forall (valid_join h) rest ->
  all_equal h first_jm value rest
  = Ret (forallb (equality_against h (jm_model fm) value) rest).
Proof.
  intros Hfm. induction 1 as [|v rest (vc & lv & Hv & Hcv) _ IH]; [done|].
  simpl. unfold equality_against at 1.
  rewrite (deref_Some _ _ _ Hv), Hv. simpl.
  destruct (chain_head_cell _ _ _ Hcv) as [vm Hvm].
  destruct (join_q vc) as [[f vv| |]|]; try done.
  rewrite (deref_Some _ _ _ Hfm). simpl.
  rewrite (deref_Some _ _ _ Hvm), Hvm. simpl.
  rewrite DeepEqual_eq.
  rewrite (bool_decide_ext (jm_model fm = jm_model vm)
             (jm_model vm = jm_model fm)) by (split; congruence).
  rewrite (bool_decide_ext (value = vv) (vv = value)) by (split; congruence).
  destruct (bool_decide (jm_model vm = jm_model fm) && bool_decide (vv = value));
    [by rewrite IH | done].
Qed.

(** The check for redundant candidates keeps the first of them when
    they are redundant, and all of them otherwise. *)
Lemma collapse_redundant h candidates :
  Forall (valid_join h) candidates ->
  collapse h candidates
  = Ret (if redundant h candidates then take 1 candidates else candidates).
Proof.
  intros Hv. destruct candidates as [|first [|second rest]]; [done..|].
  apply Forall_cons in Hv as [(fc & lf & Hf & Hcf) Hv].
  unfold collapse, redundant. rewrite (deref_Some _ _ _ Hf), Hf. simpl.
  destruct (chain_head_cell _ _ _ Hcf) as [fm Hfm]. rewrite Hfm.
  destruct (join_q fc) as [[f v| |]|]; try done.
  pose proof (all_equal_forallb h _ fm v _ Hfm Hv) as Heq.
  simpl in Heq. rewrite Heq. simpl.
  by destruct (equality_against h (jm_model fm) v second
               && forallb (equality_against h (jm_model fm) v) rest).
Qed.

Lemma resolved_head h j nodes :
  chain h j nodes -> resolved models h nodes ->
  exists c p, joinModels h !! j = Some c /\ jm_model c = Some p.
Proof.
  intros Hc Hres. destruct (chain_head _ _ _ Hc) as [l ->].
  apply Forall_cons in Hres as [[md Hmd] _].
  unfold node_model in Hmd.
  destruct (joinModels h !! j) as [c|]; [|done].
  destruct (jm_model c) as [p|] eqn:Hp; [|done]. by exists c, p.
Qed.

(** An implicit join on a chain: the candidates are collected and
    checked for redundancy, and what is left of them decides. *)
Lemma joinWith_implicit_run h j nodes target jt :
  chain h j nodes ->
  resolved models h nodes ->
  Forall (valid_join h) (candidates_of models h target nodes) ->
  forall fuel, length nodes <= fuel ->
  exists t, last nodes = Some t /\
    joinWith models fuel j target None jt h
    = match (if redundant h (candidates_of models h target nodes)
             then take 1 (candidates_of models h target nodes)
             else candidates_of models h target nodes) with
      | [c] => attach_clone fuel h t c jt
      | [] => Fail (errCantJoin j target)
      | _ => Fail (errAmbiguousJoin j target None)
      end.
Proof.
  intros Hc Hres Hv fuel Hfuel.
  destruct (resolved_head _ _ _ Hc Hres) as (cj & pj & Hj & Hpj).
  destruct (collect_chain h j nodes target Hc Hres fuel [] Hfuel)
    as (t & Hl & Hcol).
  exists t. split; [done|]. unfold joinWith.
  rewrite (deref_Some _ _ _ Hj). simpl. rewrite Hpj, Hcol. simpl.
  by rewrite (collapse_redundant h _ Hv).
Qed.

(** When one candidate is left, its clone is appended. *)
Lemma joinWith_implicit_appends h j nodes target jt c rest :
  chain h j nodes ->
  resolved models h nodes ->
  candidates_of models h target nodes = c :: rest ->
  Forall (valid_join h) (c :: rest) ->
  bool_decide (rest = []) || redundant h (c :: rest) = true ->
  exists n, forall fuel, n <= fuel ->
    exists added h',
      joinWith models fuel j target None jt h = Ret (added, h')
      /\ appended h j nodes c jt added h'.
Proof.
  intros Hc Hres Hcands Hv Hone.
  pose proof Hv as Hv'.
  apply Forall_cons in Hv' as [(cc & lc & Hcc & Hlc) _].
  exists (length nodes + length lc). intros fuel Hfuel.
  destruct (joinWith_implicit_run h j nodes target jt Hc Hres
              ltac:(by rewrite Hcands) fuel) as (t & Hl & ->); [lia|].
  rewrite Hcands.
  assert (Hkept : (if redundant h (c :: rest) then take 1 (c :: rest)
                   else c :: rest) = [c]).
  { destruct rest as [|c2 rest]; [done|].
    rewrite bool_decide_eq_false_2 in Hone by done.
    rewrite orb_false_l in Hone. by rewrite Hone. }
  rewrite Hkept.
  apply (attach_clone_appended h j nodes t c cc lc jt fuel); try done; lia.
Qed.

(** C1.  An implicit join (no condition given) on a chain that is not
    empty collects the references to the target model of every model
    of the chain.  With no candidate it returns the error that the
    chain cannot be joined with the model.  With one candidate, or
    with several that are all equality conditions against the same
    model with the same value, of which it keeps the first, it clones
    the candidate, sets the join type of the clone to the requested
    one and hangs it on the tail of the chain, leaving the candidate
    itself as it was.  Otherwise it returns the ambiguity error. *)
Theorem joinWith_implicit h j nodes target jt :
  chain h j nodes ->
  resolved models h nodes ->
  Forall (valid_join h) (candidates_of models h target nodes) ->
  exists n, forall fuel, n <= fuel ->
    match candidates_of models h target nodes with
    | [] =>
        joinWith models fuel j target None jt h
        = Fail (errCantJoin j target)
    | c :: rest =>
        if bool_decide (rest = [])
           || redundant h (candidates_of models h target nodes)
        then exists added h',
          joinWith models fuel j target None jt h = Ret (added, h')
          /\ appended h j nodes c jt added h'
        else
          joinWith models fuel j target None jt h
          = Fail (errAmbiguousJoin j target None)
    end.
Proof.
  intros Hc Hres Hv.
  destruct (candidates_of models h target nodes) as [|c rest] eqn:Hcands.
  - exists (length nodes). intros fuel Hfuel.
    destruct (joinWith_implicit_run h j nodes target jt Hc Hres
                ltac:(by rewrite Hcands) fuel Hfuel) as (t & _ & ->).
    by rewrite Hcands.
  - destruct (bool_decide (rest = []) || redundant h (c :: rest)) eqn:Hone.
    + exact (joinWith_implicit_appends h j nodes target jt c rest
               Hc Hres Hcands Hv Hone).
    + apply orb_false_iff in Hone as [Hrest Hred].
      exists (length nodes). intros fuel Hfuel.
      destruct (joinWith_implicit_run h j nodes target jt Hc Hres
                  ltac:(by rewrite Hcands) fuel Hfuel) as (t & _ & ->).
      rewrite Hcands, Hred.
      destruct rest as [|c2 rest]; [|done].
      by rewrite bool_decide_eq_true_2 in Hrest.
Qed.

(** ** Joins made for a field *)

Lemma find_named_chain h j nodes typ :
  chain h j nodes ->
  resolved models h nodes ->
  forall fuel, length nodes <= fuel ->
  find_named models fuel h j typ = Ret (named_of models h typ nodes).
Proof.
  induction 1 as [a c Ha Hn | a c ja jc l Ha Hs Hja Hc IH];
    intros Hres [|fuel] Hfuel; simpl in Hfuel; try lia;
    apply Forall_cons in Hres as [[md Hmd] Hres]; simpl;
    rewrite (deref_Some _ _ _ Ha); simpl;
    rewrite (node_model_deref _ _ _ _ Ha Hmd), Hmd; simpl;
    destruct (namedReferences md !! typ); try done.
  - by rewrite Hn.
  - rewrite Hs, (deref_Some _ _ _ Hja). simpl. apply IH; [done | lia].
Qed.

Lemma named_of_registered h typ nodes target :
  catalog_closed models h ->
  named_of models h typ nodes = Some target ->
  is_Some (models !! target).
Proof.
  intros Hcl. induction nodes as [|a l IH]; [done|]. simpl.
  destruct (node_model models h a) as [md|] eqn:Hmd; [|done].
  destruct (namedReferences md !! typ) as [t|] eqn:Ht; [|done].
  intros [= <-]. unfold node_model in Hmd.
  destruct (joinModels h !! a) as [c|]; [|done].
  destruct (jm_model c) as [p|]; [|done].
  destruct (Hcl p md Hmd) as [Hn _]. by eapply Hn.
Qed.

Lemma candidates_valid h target nodes :
  catalog_closed models h ->
  Forall (valid_join h) (candidates_of models h target nodes).
Proof.
  intros Hcl. induction nodes as [|a l IH]; [constructor|].
  simpl. apply Forall_app. split; [|done].
  destruct (node_model models h a) as [md|] eqn:Hmd; [|constructor].
  unfold node_model in Hmd.
  destruct (joinModels h !! a) as [c|]; [|done].
  destruct (jm_model c) as [p|]; [|done].
  destruct (Hcl p md Hmd) as [_ Hr].
  destruct (modelReferences md !! target) as [refs|] eqn:Hrefs;
    [by eapply Hr | constructor].
Qed.

Lemma catalog_closed_joinable h nodes typ :
  catalog_closed models h -> joinable models h nodes typ.
Proof.
  intros Hcl target Hnamed. split.
  - by eapply named_of_registered.
  - by apply candidates_valid.
Qed.

Lemma direct_reference_valid h target ja :
  direct_reference h target ja -> valid_join h ja.
Proof.
  intros (jc & cm & Hjc & Hcm & _ & Hn).
  exists jc, [join_model jc]. split; [done|]. by eapply chain_tail.
Qed.

Lemma joinable_directly_joinable h nodes typ :
  joinable_directly models h nodes typ -> joinable models h nodes typ.
Proof.
  intros Hd target Hnamed. destruct (Hd target Hnamed) as [Hreg Hdir].
  split; [done|]. eapply Forall_impl; [exact Hdir|].
  intros ja. apply direct_reference_valid.
Qed.



(** ** Field mapping *)

Lemma lookup_qname_field_of md fname :
  fields_ok md ->
  lookup_qname md fname
  = match field_of md fname with
    | Some r => Ret r
    | None => Fail (errCantMap fname)
    end.
Proof.
  intros Hok. unfold lookup_qname, field_of.
  destruct (QNameMap (fields md) !! fname) as [n|] eqn:Hn; [|done].
  destruct (map_Forall_lookup_1 _ _ _ _ Hok Hn) as [Hq Ht].
  destruct (lookup_lt_is_Some_2 _ _ Hq) as [qn Hqn].
  destruct (lookup_lt_is_Some_2 _ _ Ht) as [t Htt].
  by rewrite (deref_Some _ _ _ Hqn), (deref_Some _ _ _ Htt), Hqn, Htt.
Qed.

Lemma model_Map_unqualified md fname :
  contains pipe fname = false ->
  model_Map md fname = lookup_qname md fname.
Proof.
  intros Hn. unfold model_Map, IndexByte.
  by rewrite (IndexByte_from_absent _ _ 0 Hn).
Qed.

Lemma model_Map_qualified md typ fname :
  contains pipe typ = false ->
  model_Map md (typ ++ String pipe fname)%string
  = if answers_to md typ then lookup_qname md fname
    else Fail (errNotThisModel typ).
Proof.
  intros Hn. unfold model_Map, IndexByte.
  rewrite (IndexByte_from_present _ _ _ 0 Hn).
  replace (0 <=? 0 + Z.of_nat (String.length typ))%Z with true
    by (symmetry; apply Z.leb_le; lia).
  replace (Z.to_nat (0 + Z.of_nat (String.length typ)))
    with (String.length typ) by lia.
  rewrite slice_prefix, slice_from_suffix. unfold answers_to.
  by destruct (String.eqb typ (name md)), (String.eqb typ (shortName md)).
Qed.

(** The loop of [joinModel.Map] keeps the answers of the models that
    return no error. *)
Lemma map_candidates_chain h j nodes qname (found : model -> option (string * rtype)) :
  chain h j nodes ->
  resolved models h nodes ->
  (forall a md, a ∈ nodes -> node_model models h a = Some md ->
     match found md with
     | Some r => model_Map md qname = Ret r
     | None => exists e, model_Map md qname = Fail e
     end) ->
  forall fuel acc, length nodes <= fuel ->
  map_candidates models fuel h j qname acc
  = Ret (acc ++ omap (fun a => node_model models h a ≫= found) nodes).
Proof.
  induction 1 as [a c Ha Hn | a c ja jc l Ha Hs Hja Hc IH];
    intros Hres Hfound [|fuel] acc Hfuel; simpl in Hfuel; try lia;
    apply Forall_cons in Hres as [[md Hmd] Hres]; simpl;
    rewrite (deref_Some _ _ _ Ha); simpl;
    rewrite (node_model_deref _ _ _ _ Ha Hmd), Hmd; simpl;
    pose proof (Hfound a md (list_elem_of_here _ _) Hmd) as Hmap.
  - rewrite Hn. destruct (found md) as [r|].
    + by rewrite Hmap.
    + destruct Hmap as [e ->]. simpl. by rewrite app_nil_r.
  - rewrite Hs.
    assert (Hrest : forall acc',
      (deref (joins h) ja ≫= fun jc0 =>
         map_candidates models fuel h (join_model jc0) qname acc')
      = Ret (acc' ++ omap (fun a => node_model models h a ≫= found) l)).
    { intros acc'. rewrite (deref_Some _ _ _ Hja). simpl.
      apply IH; [done | | lia].
      intros a' md' Ha'. apply Hfound. by apply list_elem_of_further. }
    destruct (found md) as [r|].
    + rewrite Hmap. simpl. rewrite Hrest. by rewrite <- app_assoc.
    + destruct Hmap as [e ->]. simpl. by rewrite Hrest.
Qed.

Lemma resolved_registered h nodes a md :
  resolved models h nodes -> a ∈ nodes ->
  node_model models h a = Some md -> exists p, models !! p = Some md.
Proof.
  intros _ _. unfold node_model.
  destruct (joinModels h !! a) as [c|]; [|done].
  destruct (jm_model c) as [p|]; [|done]. eauto.
Qed.

(** C3.  A model asked for [Type|Field] answers with the error that
    the name is not its own when [Type] is neither its name nor its
    short name, whatever its fields are.  Over a chain, a name with a
    [Type|] prefix is resolved among the models that answer to [Type]
    only, a name without one among all models of the chain; either
    way no match is the cannot-map error, one match is the result, and
    more than one is the ambiguity error. *)
Theorem Map_one_zero_many h j nodes typ fname :
  chain h j nodes ->
  resolved models h nodes ->
  catalog_fields_ok models ->
  contains pipe typ = false ->
  (forall md, answers_to md typ = false ->
     model_Map md (typ ++ String pipe fname)%string
     = Fail (errNotThisModel typ))
  /\ exists n, forall fuel, n <= fuel ->
       joinModel_Map models fuel h j (typ ++ String pipe fname)%string
       = match matches models h nodes (Some typ) fname with
         | [] => Fail (errCantMap (typ ++ String pipe fname)%string)
         | [c] => Ret c
         | _ :: _ :: _ => Fail (errAmbiguous (typ ++ String pipe fname)%string)
         end
       /\ (contains pipe fname = false ->
           joinModel_Map models fuel h j fname
           = match matches models h nodes None fname with
             | [] => Fail (errCantMap fname)
             | [c] => Ret c
             | _ :: _ :: _ => Fail (errAmbiguous fname)
             end).
Proof.
  intros Hc Hres Hok Htyp. split.
  { intros md Hno. by rewrite (model_Map_qualified md typ fname Htyp), Hno. }
  exists (length nodes). intros fuel Hfuel. split.
  - unfold joinModel_Map.
    rewrite (map_candidates_chain h j nodes _
               (fun md => if answers_to md typ then field_of md fname else None)
               Hc Hres); [done | | done].
    intros a md Ha Hmd.
    destruct (resolved_registered _ _ _ _ Hres Ha Hmd) as [p Hp].
    rewrite (model_Map_qualified md typ fname Htyp).
    destruct (answers_to md typ); [|by eexists].
    rewrite (lookup_qname_field_of md fname (Hok p md Hp)).
    destruct (field_of md fname); [done | by eexists].
  - intros Hfname. unfold joinModel_Map.
    rewrite (map_candidates_chain h j nodes _
               (fun md => field_of md fname) Hc Hres); [done | | done].
    intros a md Ha Hmd.
    destruct (resolved_registered _ _ _ _ Hres Ha Hmd) as [p Hp].
    rewrite (model_Map_unqualified md fname Hfname).
    rewrite (lookup_qname_field_of md fname (Hok p md Hp)).
    destruct (field_of md fname); [done | by eexists].
Qed.

(** ** The order of models *)

(** The loop of [less] over references of [mi], given what the
    recursive calls return. *)
Lemma less_refs_loop fuel mi mj (refs : list Reference) :
  (forall v, v ∈ refs -> ref_Model v <> mj -> ref_Model v <> mi ->
     exists r, less models fuel (ref_Model v) mj = Ret r
               /\ (r = true <-> ~ reaches models (ref_Model v) mj)) ->
  exists r,
    (fix refs_loop (refs : list Reference) : outcome bool :=
       match refs with
       | [] => Ret true
       | v :: rest =>
           if bool_decide (ref_Model v = mj) then Ret false
           else if negb (bool_decide (ref_Model v = mi)) then
             b ← less models fuel (ref_Model v) mj;
             if b : bool then refs_loop rest else Ret false
           else refs_loop rest
       end) refs = Ret r
    /\ (r = true <->
        forall v, v ∈ refs ->
          ref_Model v <> mj
          /\ (ref_Model v = mi \/ ~ reaches models (ref_Model v) mj)).
Proof.
  induction refs as [|v rest IH]; intros Hrec.
  - exists true. split; [done|]. split; [|done]. intros _ v Hv.
    by apply elem_of_nil in Hv.
  - destruct IH as (r & Hr & Hrs).
    { intros v' Hv'. apply Hrec. by apply list_elem_of_further. }
    destruct (decide (ref_Model v = mj)) as [Hmj|Hmj].
    { exists false. rewrite bool_decide_eq_true_2 by done.
      split; [done|]. split; [done|]. intros Hall.
      destruct (Hall v (list_elem_of_here _ _)) as [Hne _]. done. }
    rewrite bool_decide_eq_false_2 by done.
    destruct (decide (ref_Model v = mi)) as [Hmi|Hmi].
    { exists r. rewrite bool_decide_eq_true_2 by done. simpl.
      split; [done|]. rewrite Hrs. split.
      - intros Hall v' Hv'. apply elem_of_cons in Hv' as [->|Hv'].
        + split; [done | by left].
        + by apply Hall.
      - intros Hall v' Hv'. apply Hall. by apply list_elem_of_further. }
    rewrite bool_decide_eq_false_2 by done. simpl.
    destruct (Hrec v (list_elem_of_here _ _) Hmj Hmi) as (rv & -> & Hrv).
    simpl. destruct rv.
    + exists r. split; [done|]. rewrite Hrs. split.
      * intros Hall v' Hv'. apply elem_of_cons in Hv' as [->|Hv'].
        -- split; [done|]. right. by apply Hrv.
        -- by apply Hall.
      * intros Hall v' Hv'. apply Hall. by apply list_elem_of_further.
    + exists false. split; [done|]. split; [done|]. intros Hall.
      destruct (Hall v (list_elem_of_here _ _)) as [_ [Heq|Hnr]]; [done|].
      apply Hrv in Hnr. done.
Qed.

(** [b] is out of reach of [a] exactly when no reference of [a] is
    [b] or, unless it is [a] itself, reaches [b]. *)
Lemma not_reaches_refs a b md :
  models !! a = Some md ->
  (forall v, v ∈ References (fields md) ->
     ref_Model v <> b
     /\ (ref_Model v = a \/ ~ reaches models (ref_Model v) b))
  <-> ~ reaches models a b.
Proof.
  intros Hmd. split.
  - intros Hall Hreach.
    assert (Hgen : forall x, tc (refers models) x b -> x = a -> False);
      [|by eapply Hgen].
    intros x Hx. induction Hx as [x y Hxy | x y z Hxy Hyz IH]; intros ->.
    + destruct Hxy as (md' & Hmd' & Hin). rewrite Hmd in Hmd'.
      injection Hmd' as <-. apply list_elem_of_fmap in Hin as (v & -> & Hv).
      by destruct (Hall v Hv).
    + destruct Hxy as (md' & Hmd' & Hin). rewrite Hmd in Hmd'.
      injection Hmd' as <-. apply list_elem_of_fmap in Hin as (v & -> & Hv).
      destruct (Hall v Hv) as [_ [Heq|Hnr]]; [by apply IH | by apply Hnr].
  - intros Hnr v Hv.
    assert (Hav : refers models a (ref_Model v)).
    { exists md. split; [done|]. apply list_elem_of_fmap. by exists v. }
    split.
    + intros <-. apply Hnr. by apply tc_once.
    + destruct (decide (ref_Model v = a)) as [?|Hne]; [by left | right].
      intros Hreach. apply Hnr. by eapply tc_l.
Qed.

Lemma references_closed_refers a b :
  references_closed models -> refers models a b -> is_Some (models !! b).
Proof.
  intros Hcl (md & Hmd & Hin).
  apply list_elem_of_fmap in Hin as (v & -> & Hv).
  pose proof (map_Forall_lookup_1 _ _ _ _ Hcl Hmd) as Hall.
  rewrite Forall_forall in Hall. by apply Hall.
Qed.

Lemma numbered_downwards_refers rank a b :
  numbered_downwards models rank -> refers models a b -> a <> b ->
  rank b < rank a.
Proof.
  intros Hrank (md & Hmd & Hin) Hne.
  apply list_elem_of_fmap in Hin as (v & -> & Hv).
  pose proof (map_Forall_lookup_1 _ _ _ _ Hrank Hmd) as Hall.
  rewrite Forall_forall in Hall. apply Hall; [done | congruence].
Qed.

Lemma less_reaches rank :
  references_closed models ->
  numbered_downwards models rank ->
  forall fuel a b, rank a < fuel -> is_Some (models !! a) ->
  exists r, less models fuel a b = Ret r
            /\ (r = true <-> ~ reaches models a b).
Proof.
  intros Hclosed Hrank.
  induction fuel as [|fuel IH]; intros a b Hfuel [md Hmd]; [lia|].
  simpl. rewrite Hmd. simpl.
  destruct (less_refs_loop fuel a b (References (fields md)))
    as (r & Hr & Hrs).
  { intros v Hv Hb Ha.
    assert (Hav : refers models a (ref_Model v)).
    { exists md. split; [done|]. apply list_elem_of_fmap. by exists v. }
    apply IH; [|by eapply references_closed_refers].
    pose proof (numbered_downwards_refers rank a (ref_Model v) Hrank Hav
                  ltac:(congruence)). lia. }
  exists r. split; [done|]. rewrite Hrs. by apply not_reaches_refs.
Qed.

(** C8, amended.  When the references between the registered models
    form no cycle through two or more models, [less a b] returns, and
    it returns true unless [b] is referenced by [a], directly or
    through the references of the models [a] references. *)
Theorem less_unless_referenced rank a b :
  references_closed models ->
  numbered_downwards models rank ->
  is_Some (models !! a) ->
  exists n, forall fuel, n <= fuel ->
    exists r, less models fuel a b = Ret r
              /\ (r = true <-> ~ reaches models a b).
Proof.
  intros Hclosed Hrank Ha. exists (S (rank a)). intros fuel Hfuel.
  apply (less_reaches rank); [done | done | lia | done].
Qed.

End WithCatalog.

(** ** The example catalog *)

Lemma chain_heap0 : chain heap0 root [root].
Proof. by apply (chain_tail heap0 root (mkJoinModel (Some Event) false None)). Qed.

Lemma chain_heap1 : chain heap1 root [root; 4].
Proof.
  apply (chain_link heap1 root (mkJoinModel (Some Event) false (Some 3)) 3
           (mkJoin 4 LeftJoin (Some (Eq "Event|UserId" (IField "User|Id")))));
    try done.
  by apply (chain_tail heap1 4 (mkJoinModel (Some User) false None)).
Qed.

Lemma resolved_heap0 : resolved catalog heap0 [root].
Proof. repeat constructor; by eexists. Qed.

Lemma resolved_heap1 : resolved catalog heap1 [root; 4].
Proof. repeat constructor; by eexists. Qed.

Lemma valid_join_heap0 ja : ja < 3 -> valid_join heap0 ja.
Proof.
  intros Hja. destruct ja as [|[|[|ja]]]; [| | |lia]; eexists _, [_];
    (split; [reflexivity|]); by eapply chain_tail.
Qed.

Lemma valid_join_heap1 ja : ja < 3 -> valid_join heap1 ja.
Proof.
  intros Hja. destruct ja as [|[|[|ja]]]; [| | |lia]; eexists _, [_];
    (split; [reflexivity|]); by eapply chain_tail.
Qed.

(** Joining [User] to a query on [Event] finds one reference; joining
    [Place] to the chain of [Event] and [User] finds two, both equalities
    with the identifier of [Place], and takes the first; joining [Event]
    to itself finds none. *)
Lemma joinWith_implicit_witness :
  (chain heap0 root [root]
   /\ resolved catalog heap0 [root]
   /\ Forall (valid_join heap0) (candidates_of catalog heap0 User [root])
   /\ exists n, forall fuel, n <= fuel ->
        exists added h',
          joinWith catalog fuel root User None LeftJoin heap0 = Ret (added, h')
          /\ appended heap0 root [root] 0 LeftJoin added h')
  /\ (chain heap1 root [root; 4]
      /\ resolved catalog heap1 [root; 4]
      /\ Forall (valid_join heap1) (candidates_of catalog heap1 Place [root; 4])
      /\ candidates_of catalog heap1 Place [root; 4] = [1; 2]
      /\ exists n, forall fuel, n <= fuel ->
           exists added h',
             joinWith catalog fuel root Place None RightJoin heap1
             = Ret (added, h')
             /\ appended heap1 root [root; 4] 1 RightJoin added h')
  /\ (exists n, forall fuel, n <= fuel ->
        joinWith catalog fuel root Event None InnerJoin heap0
        = Fail (errCantJoin root Event)).
Proof.
  assert (Hc0 : candidates_of catalog heap0 User [root] = [0])
    by (vm_compute; reflexivity).
  assert (Hc1 : candidates_of catalog heap1 Place [root; 4] = [1; 2])
    by (vm_compute; reflexivity).
  assert (Hc2 : candidates_of catalog heap0 Event [root] = [])
    by (vm_compute; reflexivity).
  assert (Hv0 : Forall (valid_join heap0) (candidates_of catalog heap0 User [root])).
  { rewrite Hc0. repeat constructor. apply valid_join_heap0. lia. }
  assert (Hv1 : Forall (valid_join heap1)
                  (candidates_of catalog heap1 Place [root; 4])).
  { rewrite Hc1. repeat constructor; apply valid_join_heap1; lia. }
  assert (Hv2 : Forall (valid_join heap0) (candidates_of catalog heap0 Event [root])).
  { rewrite Hc2. constructor. }
  split; [|split].
  - split; [exact chain_heap0|]. split; [exact resolved_heap0|].
    split; [exact Hv0|].
    pose proof (joinWith_implicit catalog heap0 root [root] User LeftJoin
                  chain_heap0 resolved_heap0 Hv0) as H.
    rewrite Hc0 in H. exact H.
  - split; [exact chain_heap1|]. split; [exact resolved_heap1|].
    split; [exact Hv1|]. split; [exact Hc1|].
    pose proof (joinWith_implicit catalog heap1 root [root; 4] Place RightJoin
                  chain_heap1 resolved_heap1 Hv1) as H.
    rewrite Hc1 in H. exact H.
  - pose proof (joinWith_implicit catalog heap0 root [root] Event InnerJoin
                  chain_heap0 resolved_heap0 Hv2) as H.
    rewrite Hc2 in H. exact H.
Defined.

(** Two references to [Place] that compare with the literal 1 are
    redundant when both literals are of type [int]; with an [int] and an
    [int64] they are not, and the join is ambiguous. *)
Example joinWith_literals_of_two_types :
  redundant (heap_values (IInt 1) (IInt 1)) [1; 2] = true
  /\ match joinWith catalog 3 root Place None InnerJoin
             (heap_values (IInt 1) (IInt 1)) with
     | Ret (added, _) => added = 5
     | _ => False
     end
  /\ redundant (heap_values (IInt 1) (IVal Tint64 (SInt 1))) [1; 2] = false
  /\ joinWith catalog 3 root Place None InnerJoin
       (heap_values (IInt 1) (IVal Tint64 (SInt 1)))
     = Fail (errAmbiguousJoin root Place None).
Proof. vm_compute. by repeat split. Qed.

Lemma catalog_fields_ok_catalog : catalog_fields_ok catalog.
Proof. apply (bool_decide_unpack _). by vm_compute. Qed.

Lemma references_closed_catalog : references_closed catalog.
Proof. apply (bool_decide_unpack _). by vm_compute. Qed.

Lemma numbered_downwards_catalog : numbered_downwards catalog catalog_rank.
Proof. apply (bool_decide_unpack _). by vm_compute. Qed.

Lemma joinable_heap0_User : joinable catalog heap0 [root] (field_type "User|Name").
Proof.
  intros target Hnamed. vm_compute in Hnamed. injection Hnamed as <-.
  split; [by eexists|].
  replace (candidates_of catalog heap0 1 [root]) with [0]
    by (vm_compute; reflexivity).
  repeat constructor. apply valid_join_heap0. lia.
Qed.



(** What that call returns: the visited set holds [User], and the join
    model it added, at address 4, is skipped and shows no fields. *)
Example joinWithField_User_Name :
  match joinWithField catalog 2 root "User|Name" InnerJoin fstate0 with
  | Ret s' =>
      bool_decide (User ∈ fs_models s') = true
      /\ joinModel_Skip (fs_heap s') 4 = Ret true
      /\ joinModel_Fields catalog (fs_heap s') 4 = Ret None
      /\ joinModel_Skip (fs_heap s') root = Ret false
  | _ => False
  end.
Proof. vm_compute. by repeat split. Qed.



(** In the chain of [Event] and [User], [User|Name] is the column of
    [User] although [Event] has a [Name] too, and [Name] is ambiguous. *)
Lemma Map_witness :
  chain heap1 root [root; 4]
  /\ resolved catalog heap1 [root; 4]
  /\ catalog_fields_ok catalog
  /\ contains pipe "User" = false
  /\ contains pipe "Name" = false
  /\ matches catalog heap1 [root; 4] (Some "User") "Name"
     = [("user.name", "string")]
  /\ matches catalog heap1 [root; 4] None "Name"
     = [("event.name", "string"); ("user.name", "string")]
  /\ exists n, forall fuel, n <= fuel ->
       joinModel_Map catalog fuel heap1 root "User|Name"
       = Ret ("user.name", "string")
       /\ joinModel_Map catalog fuel heap1 root "Name"
          = Fail (errAmbiguous "Name").
Proof.
  split; [exact chain_heap1|]. split; [exact resolved_heap1|].
  split; [exact catalog_fields_ok_catalog|].
  split; [reflexivity|]. split; [reflexivity|].
  assert (Hq : matches catalog heap1 [root; 4] (Some "User") "Name"
               = [("user.name", "string")]) by (vm_compute; reflexivity).
  assert (Hu : matches catalog heap1 [root; 4] None "Name"
               = [("event.name", "string"); ("user.name", "string")])
    by (vm_compute; reflexivity).
  split; [exact Hq|]. split; [exact Hu|].
  destruct (Map_one_zero_many catalog heap1 root [root; 4] "User" "Name"
              chain_heap1 resolved_heap1 catalog_fields_ok_catalog eq_refl)
    as [_ [n Hn]].
  exists n. intros fuel Hfuel. destruct (Hn fuel Hfuel) as [Hqual Hunq].
  rewrite Hq in Hqual. split; [exact Hqual|].
  specialize (Hunq eq_refl). rewrite Hu in Hunq. exact Hunq.
Defined.

Lemma less_witness :
  references_closed catalog
  /\ numbered_downwards catalog catalog_rank
  /\ is_Some (catalog !! Event)
  /\ exists n, forall fuel, n <= fuel ->
       exists r, less catalog fuel Event Place = Ret r
                 /\ (r = true <-> ~ reaches catalog Event Place).
Proof.
  assert (He : is_Some (catalog !! Event)) by (by eexists).
  split; [exact references_closed_catalog|].
  split; [exact numbered_downwards_catalog|].
  split; [exact He|].
  exact (less_unless_referenced catalog catalog_rank Event Place
           references_closed_catalog numbered_downwards_catalog He).
Defined.

(** ** Models that reference each other *)

Lemma less_cyclic_diverges fuel :
  less cyclic fuel 0 2 = OutOfFuel /\ less cyclic fuel 1 2 = OutOfFuel.
Proof.
  induction fuel as [|fuel [IH0 IH1]]; [done|].
  split.
  - change (less cyclic (S fuel) 0 2)
      with (b ← less cyclic fuel 1 2;
            if b : bool then Ret true else Ret false).
    by rewrite IH1.
  - change (less cyclic (S fuel) 1 2)
      with (b ← less cyclic fuel 0 2;
            if b : bool then Ret true else Ret false).
    by rewrite IH0.
Qed.

Lemma cyclic_refers a b : refers cyclic a b -> b < 2.
Proof.
  intros (md & Hmd & Hin). destruct a as [|[|[|a]]].
  - vm_compute in Hmd. injection Hmd as <-. simpl in Hin.
    apply list_elem_of_singleton in Hin. lia.
  - vm_compute in Hmd. injection Hmd as <-. simpl in Hin.
    apply list_elem_of_singleton in Hin. lia.
  - vm_compute in Hmd. injection Hmd as <-. simpl in Hin.
    by apply elem_of_nil in Hin.
  - unfold cyclic in Hmd.
    rewrite !lookup_insert_ne, lookup_singleton_ne in Hmd by lia. done.
Qed.

Lemma cyclic_reaches a b : reaches cyclic a b -> b < 2.
Proof.
  induction 1 as [x y Hxy | x y z Hxy Hyz IH]; [by eapply cyclic_refers | done].
Qed.

Lemma cyclic_not_reaches : ~ reaches cyclic 0 2.
Proof. intros H. apply cyclic_reaches in H. lia. Qed.

(** With [Author] and [Book] referencing each other, [less Author
    Shelf] never returns, although [Shelf] is referenced by neither: it
    is not so that [less a b] returns true unless [a] references [b]. *)
Lemma less_cyclic_counterexample :
  ~ reaches cyclic 0 2
  /\ (forall fuel, less cyclic fuel 0 2 = OutOfFuel)
  /\ ~ (forall a b, is_Some (cyclic !! a) ->
          exists fuel r, less cyclic fuel a b = Ret r
                         /\ (r = true <-> ~ reaches cyclic a b)).
Proof.
  split; [exact cyclic_not_reaches|].
  split; [intros fuel; apply less_cyclic_diverges|].
  intros H. destruct (H 0 2) as (fuel & r & Hr & _); [by eexists|].
  destruct (less_cyclic_diverges fuel) as [Hd _]. congruence.
Qed.

End OrmFacts.

(** * More on the query executor *)

Module SqlMore.
Import Go Sql SqlFacts.
Local Open Scope list_scope.

(** ** Strings *)

Lemma append_nil_r (s : string) : (s ++ "")%string = s.
Proof.
  induction s as [|a s IH]; [done|].
  change (String a (s ++ "") = String a s)%string. by rewrite IH.
Qed.

Lemma append_assoc (s t u : string) :
  ((s ++ t) ++ u)%string = (s ++ (t ++ u))%string.
Proof.
  induction s as [|a s IH]; [done|].
  change (String a ((s ++ t) ++ u) = String a (s ++ (t ++ u)))%string.
  by rewrite IH.
Qed.

Lemma length_append (s t : string) :
  String.length (s ++ t)%string = String.length s + String.length t.
Proof.
  induction s as [|a s IH]; [done|].
  change (S (String.length (s ++ t)%string)
          = S (String.length s + String.length t)).
  by rewrite IH.
Qed.

Lemma get_append_length (pre : string) c rest :
  String.get (String.length pre) (pre ++ String c rest)%string = Some c.
Proof. induction pre as [|a pre IH]; [done|]. cbn. exact IH. Qed.

Lemma get_append_next (pre : string) c rest :
  String.get (String.length pre + 1) (pre ++ String c rest)%string
  = String.get 0 rest.
Proof.
  induction pre as [|a pre IH]; [by destruct rest|]. cbn. exact IH.
Qed.

Lemma substring_zero n (s : string) : String.substring n 0 s = ""%string.
Proof.
  revert n. induction s as [|a s IH]; intros [|n]; cbn; try done.
Qed.

(** A slice grows by the byte behind it. *)
Lemma substring_snoc n m (s : string) c :
  String.get (n + m) s = Some c ->
  String.substring n (S m) s
  = (String.substring n m s ++ String c "")%string.
Proof.
  revert n m. induction s as [|a s IH]; intros n m Hget; [by destruct (n + m)|].
  destruct n as [|n].
  - destruct m as [|m].
    + cbn in Hget. injection Hget as ->. cbn. by rewrite substring_zero.
    + cbn in Hget. cbn.
      change (String a (String.substring 0 (S m) s)
              = String a (String.substring 0 m s ++ String c ""))%string.
      f_equal. apply (IH 0 m). exact Hget.
  - cbn in Hget. cbn. apply IH. exact Hget.
Qed.

Lemma slice_snoc (query : string) w ii c :
  w <= ii -> String.get ii query = Some c ->
  slice query w (S ii) = (slice query w ii ++ String c "")%string.
Proof.
  intros Hw Hget. unfold slice.
  replace (S ii - w) with (S (ii - w)) by lia.
  apply substring_snoc. by replace (w + (ii - w)) with ii by lia.
Qed.

Lemma slice_empty (query : string) ii : slice query ii ii = ""%string.
Proof. unfold slice. rewrite Nat.sub_diag. apply substring_zero. Qed.

(** ** Placeholder rewriting *)

Section Rewriting.
Variable placeholder : nat -> string.

(** The test for a doubled quote looks at the byte that follows. *)
Lemma quote_test (pre : string) rest :
  (Z.of_nat (String.length pre)
     =? Z.of_nat (String.length (pre ++ String squote rest)%string) - 1)%Z
  || negb (bool_decide (byte_at (pre ++ String squote rest)%string
                          (String.length pre + 1) = Some squote))
  = negb (starts_with_quote rest).
Proof.
  unfold byte_at. rewrite get_append_next.
  destruct rest as [|c rest]; cbn [String.get starts_with_quote].
  - rewrite bool_decide_eq_false_2 by done. apply orb_true_r.
  - rewrite length_append. cbn [String.length].
    replace (Z.of_nat (String.length pre)
               =? Z.of_nat (String.length pre + S (S (String.length rest))) - 1)%Z
      with false by (symmetry; apply Z.eqb_neq; lia).
    cbn [orb]. f_equal. destruct (Ascii.eqb_spec c squote) as [->|Hne].
    + by rewrite bool_decide_eq_true_2.
    + rewrite bool_decide_eq_false_2; [done | congruence].
Qed.

(** What the loop has emitted so far: the buffer and the text not yet
    copied to it. *)
Definition emitted (query : string) (st : rp_state) (ii : nat) : string :=
  (rp_buf st ++ slice query (rp_written st) ii)%string.

Lemma rp_step_emitted (pre : string) ch rest st :
  rp_written st <= String.length pre ->
  let query := (pre ++ String ch rest)%string in
  let st' := rp_step placeholder query (Z.of_nat (String.length query) - 1)
               st (String.length pre) ch in
  rp_written st' <= S (String.length pre)
  /\ (rp_written st' = 0 -> rp_written st = 0 /\ rp_buf st' = rp_buf st)
  /\ forall k : bool -> bool -> nat -> string,
       (emitted query st (String.length pre)
          ++ (if Ascii.eqb ch squote then
                String ch (k (if starts_with_quote rest then rp_inQuote st
                              else negb (rp_inQuote st))
                             (rp_inDoubleQuote st) (rp_p st))
              else if Ascii.eqb ch dquote then
                String ch (k (rp_inQuote st) (negb (rp_inDoubleQuote st)) (rp_p st))
              else if Ascii.eqb ch qmark then
                if negb (rp_inQuote st) && negb (rp_inDoubleQuote st)
                then placeholder (rp_p st)
                       ++ k (rp_inQuote st) (rp_inDoubleQuote st) (S (rp_p st))
                else String ch (k (rp_inQuote st) (rp_inDoubleQuote st) (rp_p st))
              else String ch (k (rp_inQuote st) (rp_inDoubleQuote st) (rp_p st))))%string
       = (emitted query st' (S (String.length pre))
            ++ k (rp_inQuote st') (rp_inDoubleQuote st') (rp_p st'))%string.
Proof.
  intros Hw query st'.
  assert (Hget : String.get (String.length pre) query = Some ch)
    by apply get_append_length.
  assert (Hcopy : forall st0 : rp_state,
            rp_written st0 = rp_written st -> rp_buf st0 = rp_buf st ->
            forall tail : string,
            (emitted query st (String.length pre) ++ String ch tail)%string
            = (emitted query st0 (S (String.length pre)) ++ tail)%string).
  { intros st0 Hw0 Hb0 tail. unfold emitted. rewrite Hw0, Hb0.
    rewrite (slice_snoc query _ _ ch Hw Hget).
    by rewrite !append_assoc. }
  subst st' query. unfold rp_step.
  destruct (Ascii.eqb ch squote) eqn:Hsq.
  { apply Ascii.eqb_eq in Hsq. subst ch. rewrite quote_test.
    destruct (starts_with_quote rest); cbn [negb];
      (split; [cbn; lia|]); (split; [by intros ?|]);
      intros k; by apply Hcopy. }
  destruct (Ascii.eqb ch dquote).
  { split; [cbn; lia|]. split; [by intros ?|]. intros k. by apply Hcopy. }
  destruct (Ascii.eqb ch qmark).
  2: { split; [lia|]. split; [by intros ?|]. intros k. by apply Hcopy. }
  destruct (negb (rp_inQuote st) && negb (rp_inDoubleQuote st)).
  2: { split; [lia|]. split; [by intros ?|]. intros k. by apply Hcopy. }
  split; [cbn; lia|]. split; [cbn; lia|].
  intros k. unfold emitted. cbn [rp_buf rp_written rp_inQuote rp_inDoubleQuote rp_p].
  replace (String.length pre + 1) with (S (String.length pre)) by lia.
  rewrite slice_empty, append_nil_r. by rewrite !append_assoc.
Qed.

Lemma append_snoc_cons (pre : string) c rest :
  ((pre ++ String c "") ++ rest)%string = (pre ++ String c rest)%string.
Proof. by rewrite append_assoc. Qed.

Lemma rp_loop_rewrite (rest : string) :
  forall (pre : string) st,
  rp_written st <= String.length pre ->
  (rp_written st = 0 -> rp_buf st = ""%string) ->
  let query := (pre ++ rest)%string in
  let st' := rp_loop placeholder query (Z.of_nat (String.length query) - 1)
               (String.length pre) (list_ascii_of_string rest) st in
  emitted query st' (String.length query)
  = (emitted query st (String.length pre)
       ++ rewrite placeholder (rp_inQuote st) (rp_inDoubleQuote st) (rp_p st)
            rest)%string
  /\ (rp_written st' = 0 -> rp_buf st' = ""%string).
Proof.
  induction rest as [|ch rest IH]; intros pre st Hw Hbuf; cbn zeta.
  - cbn [list_ascii_of_string rp_loop rewrite].
    rewrite !append_nil_r. done.
  - cbn [list_ascii_of_string rp_loop].
    destruct (rp_step_emitted pre ch rest st Hw) as (Hw1 & Hzero & Hstep).
    cbn zeta in Hw1, Hzero, Hstep.
    set (st1 := rp_step placeholder (pre ++ String ch rest)%string
                  (Z.of_nat (String.length (pre ++ String ch rest)%string) - 1)
                  st (String.length pre) ch) in *.
    specialize (IH (pre ++ String ch "")%string st1).
    rewrite length_append in IH. cbn [String.length] in IH.
    replace (String.length pre + 1) with (S (String.length pre)) in IH by lia.
    rewrite append_snoc_cons in IH.
    destruct IH as [IHe IHz]; [done | |].
    { intros Hz. destruct (Hzero Hz) as [Hz0 ->]. by apply Hbuf. }
    split; [|done]. rewrite IHe.
    rewrite <- (Hstep (fun a b p => rewrite placeholder a b p rest)).
    done.
Qed.

(** What [replacePlaceholders] returns is what its loop has emitted at
    the end of the text, also when it returns the text itself. *)
Lemma replacePlaceholders_emitted query :
  replacePlaceholders placeholder query
  = emitted query (rp_run placeholder query) (String.length query).
Proof.
  destruct (rp_loop_rewrite query ""%string rp_init) as [_ Hz];
    [cbn; lia | done |].
  cbn zeta in Hz.
  change (""%string ++ query)%string with query in Hz.
  change (String.length ""%string) with 0 in Hz.
  unfold replacePlaceholders, rp_run, emitted in *.
  set (st := rp_loop placeholder query (Z.of_nat (String.length query) - 1) 0
               (list_ascii_of_string query) rp_init) in *.
  destruct (Nat.eqb_spec (rp_written st) 0) as [Hw|Hw]; [|done].
  rewrite (Hz Hw), Hw. unfold slice. rewrite Nat.sub_0_r.
  symmetry. apply OrmFacts.substring_whole.
Qed.

Lemma rp_run_rewrite query :
  emitted query (rp_run placeholder query) (String.length query)
  = rewrite placeholder false false 0 query.
Proof.
  destruct (rp_loop_rewrite query ""%string rp_init) as [He _];
    [cbn; lia | done |].
  cbn zeta in He.
  change (""%string ++ query)%string with query in He.
  change (String.length ""%string) with 0 in He.
  assert (Hinit : emitted query rp_init 0 = ""%string).
  { unfold emitted. cbn [rp_init rp_buf rp_written]. by rewrite slice_empty. }
  rewrite Hinit in He. exact He.
Qed.

(** X1.  [replacePlaceholders] returns what a single scan of the text
    emits that copies every byte except the question marks outside
    quotes, for which it emits the next placeholder: the offsets into the
    text, the buffer and the shortcut for a text without substitution
    lose and add nothing. *)
Theorem replacePlaceholders_scans_once query :
  replacePlaceholders placeholder query
  = rewrite placeholder false false 0 query.
Proof. rewrite replacePlaceholders_emitted. apply rp_run_rewrite. Qed.

(** *** What the scan does to texts of a known shape *)

Lemma rewrite_no_qmark s inQ inDq p :
  contains qmark s = false -> rewrite placeholder inQ inDq p s = s.
Proof.
  revert inQ inDq p. induction s as [|ch s IH]; intros inQ inDq p Hn; [done|].
  cbn [contains] in Hn. apply orb_false_iff in Hn as [Hch Hs].
  cbn [rewrite]. rewrite Hch.
  destruct (Ascii.eqb ch squote); [by rewrite IH|].
  destruct (Ascii.eqb ch dquote); by rewrite IH.
Qed.

(** X2.  A text without a question mark is returned as it is, whatever
    quotes it holds. *)
Theorem replacePlaceholders_without_question_mark query :
  contains qmark query = false ->
  replacePlaceholders placeholder query = query.
Proof.
  intros Hn. rewrite replacePlaceholders_emitted, rp_run_rewrite.
  by apply rewrite_no_qmark.
Qed.

Lemma plain_text_cons ch s :
  plain_text (String ch s) = true ->
  Ascii.eqb ch squote = false /\ Ascii.eqb ch dquote = false
  /\ Ascii.eqb ch qmark = false /\ plain_text s = true.
Proof.
  unfold plain_text. cbn [contains].
  destruct (Ascii.eqb ch squote), (Ascii.eqb ch dquote), (Ascii.eqb ch qmark);
    cbn; intros H; try done.
  all: try (by repeat split).
  all: destruct (contains squote s), (contains dquote s); cbn in H; done.
Qed.

(** Outside quotes, plain text is copied and changes nothing. *)
Lemma rewrite_plain seg rest p :
  plain_text seg = true ->
  rewrite placeholder false false p (seg ++ rest)%string
  = (seg ++ rewrite placeholder false false p rest)%string.
Proof.
  induction seg as [|ch seg IH]; intros Hp; [done|].
  apply plain_text_cons in Hp as (Hsq & Hdq & Hqm & Hp).
  change (String ch seg ++ rest)%string with (String ch (seg ++ rest)%string).
  cbn [rewrite]. rewrite Hsq, Hdq, Hqm.
  change (String ch seg ++ rewrite placeholder false false p rest)%string
    with (String ch (seg ++ rewrite placeholder false false p rest)%string).
  by rewrite IH.
Qed.

Lemma rewrite_segments segs : forall seg p,
  plain_text seg = true ->
  Forall (fun s => plain_text s = true) segs ->
  rewrite placeholder false false p (with_question_marks seg segs)
  = with_placeholders placeholder p seg segs.
Proof.
  induction segs as [|s segs IH]; intros seg p Hseg Hsegs.
  - cbn [with_question_marks with_placeholders].
    rewrite <- (append_nil_r seg) at 1. rewrite rewrite_plain by done.
    apply append_nil_r.
  - apply Forall_cons in Hsegs as [Hs Hsegs].
    cbn [with_question_marks with_placeholders].
    rewrite rewrite_plain by done. f_equal.
    cbn [rewrite]. cbn. f_equal. by apply IH.
Qed.

(** X3.  In a text without quotes every question mark is replaced, the
    first by placeholder 0 and each further one by the next, and the text
    between them is copied. *)
Theorem replacePlaceholders_numbers_in_order seg segs :
  plain_text seg = true ->
  Forall (fun s => plain_text s = true) segs ->
  replacePlaceholders placeholder (with_question_marks seg segs)
  = with_placeholders placeholder 0 seg segs.
Proof.
  intros Hseg Hsegs. rewrite replacePlaceholders_emitted, rp_run_rewrite.
  by apply rewrite_segments.
Qed.

Lemma rewrite_inside_literal lit rest inQ inDq p :
  inQ || inDq = true ->
  contains squote lit = false -> contains dquote lit = false ->
  rewrite placeholder inQ inDq p (lit ++ rest)%string
  = (lit ++ rewrite placeholder inQ inDq p rest)%string.
Proof.
  intros Hin. induction lit as [|ch lit IH]; intros Hsq Hdq; [done|].
  cbn [contains] in Hsq, Hdq.
  apply orb_false_iff in Hsq as [Hsq Hsq'].
  apply orb_false_iff in Hdq as [Hdq Hdq'].
  change (String ch lit ++ rest)%string with (String ch (lit ++ rest)%string).
  cbn [rewrite]. rewrite Hsq, Hdq.
  change (String ch lit ++ rewrite placeholder inQ inDq p rest)%string
    with (String ch (lit ++ rewrite placeholder inQ inDq p rest)%string).
  destruct (Ascii.eqb ch qmark); [|by rewrite IH].
  replace (negb inQ && negb inDq) with false
    by (by destruct inQ, inDq). by rewrite IH.
Qed.

Lemma starts_with_quote_append lit rest :
  lit <> ""%string -> contains squote lit = false ->
  starts_with_quote (lit ++ rest)%string = false.
Proof.
  intros Hne Hsq. destruct lit as [|ch lit]; [done|].
  cbn [contains] in Hsq. by apply orb_false_iff in Hsq as [Hsq _].
Qed.

(** X4.  A literal in single quotes that is not empty and holds no quote,
    or a name in double quotes that holds no quote, is copied with its
    question marks when plain text comes before it, and the text after it
    is rewritten as if it stood alone.  For single quotes the text after
    the literal must not start with a quote. *)
Theorem replacePlaceholders_keeps_literal before lit after :
  plain_text before = true ->
  contains squote lit = false -> contains dquote lit = false ->
  (lit <> ""%string -> starts_with_quote after = false ->
   replacePlaceholders placeholder
     (before ++ String squote (lit ++ String squote after))%string
   = (before ++ String squote
        (lit ++ String squote (replacePlaceholders placeholder after)))%string)
  /\ replacePlaceholders placeholder
       (before ++ String dquote (lit ++ String dquote after))%string
     = (before ++ String dquote
          (lit ++ String dquote (replacePlaceholders placeholder after)))%string.
Proof.
  intros Hb Hsq Hdq. split.
  - intros Hne Hafter.
    rewrite !replacePlaceholders_emitted, !rp_run_rewrite.
    rewrite rewrite_plain by done. f_equal.
    cbn [rewrite]. rewrite Ascii.eqb_refl.
    rewrite (starts_with_quote_append lit _ Hne Hsq). cbn [negb]. f_equal.
    rewrite rewrite_inside_literal by done. f_equal.
    cbn [rewrite]. rewrite Ascii.eqb_refl, Hafter. done.
  - rewrite !replacePlaceholders_emitted, !rp_run_rewrite.
    rewrite rewrite_plain by done. f_equal.
    cbn [rewrite]. change (Ascii.eqb dquote squote) with false.
    rewrite Ascii.eqb_refl. cbn [negb]. f_equal.
    rewrite rewrite_inside_literal by done. by f_equal.
Qed.

End Rewriting.

(** ** The statement cache and the transactions *)

Lemma count_calls_app f (h l : list call) :
  count_calls f (h ++ l) = count_calls f h + count_calls f l.
Proof. unfold count_calls. by rewrite filter_app, length_app. Qed.

Lemma count_calls_cons f c (l : list call) :
  count_calls f (c :: l) = (if f c then 1 else 0) + count_calls f l.
Proof.
  unfold count_calls. rewrite filter_cons.
  destruct (decide (f c = true)) as [Hc|Hc]; destruct (f c); done.
Qed.

Lemma count_calls_nil f : count_calls f [] = 0.
Proof. done. Qed.

Section Handles.
Variable placeholder : nat -> string.
Variable checksum : string -> N.
Variable Prepare_r : list call -> string -> option Stmt * option error.
Variable Begin_r : list call -> Tx + error.
Variable err_r : list call -> call -> option error.
Variable Stmt_r : list call -> Tx -> Stmt -> Stmt.
Variable Result : Type.
Variable run_r : list call -> call -> Result.

Local Abbreviation preparedStmt := (preparedStmt checksum Prepare_r Stmt_r).
Local Abbreviation bound_stmt := (bound_stmt Stmt_r).
Local Abbreviation run := (run checksum Prepare_r Stmt_r run_r).
Local Abbreviation Exec := (Exec placeholder checksum Prepare_r Stmt_r run_r).
Local Abbreviation Query := (Query placeholder checksum Prepare_r Stmt_r run_r).
Local Abbreviation QueryRow :=
  (QueryRow placeholder checksum Prepare_r Stmt_r run_r).
Local Abbreviation Close := (Close err_r).
Local Abbreviation Commit := (Commit err_r).
Local Abbreviation Rollback := (Rollback err_r).
Local Abbreviation Begin := (Begin Begin_r).

(** The calls [preparedStmt] makes: [Prepare] at most once and first,
    then [tx.Stmt] at most once. *)
Lemma preparedStmt_calls d s w :
  exists l,
    history (preparedStmt d s w).2 = history w ++ l
    /\ count_calls is_run l = 0
    /\ count_calls is_prepare l <= 1.
Proof.
  unfold Sql.preparedStmt, Sql.bound_stmt, cache_store.
  destruct (cache_lookup d w (checksum s)) as [e|];
    [destruct (String.eqb (ce_sql e) s)|];
    destruct (Prepare_r (history w) s) as [[stmt|] err];
    destruct (cache d) as [r|]; cbn; destruct (tx d) as [t|]; cbn;
    first
      [ exists []; split; [by rewrite app_nil_r|]
      | eexists [_]; split; [reflexivity|]
      | eexists [_; _]; split; [by rewrite <- app_assoc|] ];
    rewrite ?count_calls_cons, ?count_calls_nil; cbn [is_run is_prepare];
    split; lia.
Qed.

Lemma run_calls o d text args w :
  count_calls is_run (history (run o d text args w).2)
  = S (count_calls is_run (history w))
  /\ count_calls is_prepare (history (run o d text args w).2)
     <= S (count_calls is_prepare (history w)).
Proof.
  unfold Sql.run.
  destruct (0 <? length args)%nat.
  - destruct (preparedStmt_calls d text (log (Debugq text args) w))
      as (l & Hl & Hrun & Hprep).
    destruct (preparedStmt d text (log (Debugq text args) w))
      as [[[stmt|] d1] w1]; cbn [snd fst] in Hl |- *;
      cbn [stmt_run conn_run log history snd] in Hl |- *;
      rewrite Hl, !count_calls_app, !count_calls_cons, !count_calls_nil, Hrun;
      cbn [is_run is_prepare]; lia.
  - cbn [conn_run log history snd fst].
    rewrite !count_calls_app, !count_calls_cons, !count_calls_nil.
    cbn [is_run is_prepare]. lia.
Qed.

(** X5.  Whatever the text, the arguments and the state of the cache,
    each of [Exec], [Query] and [QueryRow] runs the text exactly once,
    on a prepared statement or on the connection, and prepares at most
    one statement. *)
Theorem entry_points_run_once d query args w :
  (count_calls is_run (history (Exec d query args w).2)
   = S (count_calls is_run (history w))
   /\ count_calls is_prepare (history (Exec d query args w).2)
      <= S (count_calls is_prepare (history w)))
  /\ (count_calls is_run (history (Query d query args w).2)
      = S (count_calls is_run (history w))
      /\ count_calls is_prepare (history (Query d query args w).2)
         <= S (count_calls is_prepare (history w)))
  /\ (count_calls is_run (history (QueryRow d query args w).2)
      = S (count_calls is_run (history w))
      /\ count_calls is_prepare (history (QueryRow d query args w).2)
         <= S (count_calls is_prepare (history w))).
Proof.
  unfold Sql.Exec, Sql.Query, Sql.QueryRow.
  split; [|split]; apply run_calls.
Qed.

Lemma bound_stmt_world d stmt w :
  caches (bound_stmt d stmt w).2 = caches w
  /\ count_calls is_prepare (history (bound_stmt d stmt w).2)
     = count_calls is_prepare (history w).
Proof.
  unfold Sql.bound_stmt. destruct (tx d) as [t|]; [|done].
  cbn [snd log history caches].
  rewrite count_calls_app, count_calls_cons, count_calls_nil.
  cbn [is_prepare]. split; [done | lia].
Qed.

Lemma cache_lookup_caches d w w' key :
  caches w' = caches w -> cache_lookup d w' key = cache_lookup d w key.
Proof. intros Hc. unfold cache_lookup. by rewrite Hc. Qed.

(** After a call of [preparedStmt] that returned a statement, the cache
    of the handle holds the text. *)
Lemma preparedStmt_cached d s w :
  valid_cache d w ->
  is_Some (preparedStmt d s w).1.1 ->
  exists e, cache_lookup (preparedStmt d s w).1.2 (preparedStmt d s w).2
              (checksum s) = Some e
            /\ ce_sql e = s.
Proof.
  intros Hv Hsome.
  destruct (cache_lookup d w (checksum s)) as [e|] eqn:Hl.
  - destruct (decide (ce_sql e = s)) as [He|He].
    + rewrite (preparedStmt_hit checksum Prepare_r Stmt_r d s w e Hl He).
      exists e. split; [|done]. cbn [fst snd].
      rewrite (cache_lookup_caches d w); [done|].
      apply bound_stmt_world.
    + pose proof (preparedStmt_fresh checksum Prepare_r Stmt_r d s w Hv) as Hf.
      unfold prepares_afresh in Hf.
      destruct ((Prepare_r (history w) s).1) as [stmt|].
      * destruct Hf as (d' & w' & Hr & Hc & _).
        { intros e' He'. rewrite Hl in He'. by injection He' as <-. }
        rewrite Hr. by exists (CacheEntry s stmt).
      * rewrite Hf in Hsome; [by destruct Hsome|].
        intros e' He'. rewrite Hl in He'. by injection He' as <-.
  - pose proof (preparedStmt_fresh checksum Prepare_r Stmt_r d s w Hv) as Hf.
    unfold prepares_afresh in Hf.
    destruct ((Prepare_r (history w) s).1) as [stmt|].
    + destruct Hf as (d' & w' & Hr & Hc & _).
      { intros e' He'. by rewrite Hl in He'. }
      rewrite Hr. by exists (CacheEntry s stmt).
    + rewrite Hf in Hsome; [by destruct Hsome|].
      intros e' He'. by rewrite Hl in He'.
Qed.

(** X6.  When [preparedStmt] has returned a statement for a text, the
    next call for the same text on the handle as it is then finds the
    text in the cache: it returns the cached statement, bound to the
    transaction if there is one, calls [Prepare] no more, and leaves the
    handle and the caches as they are. *)
Theorem preparedStmt_prepares_once d s w :
  valid_cache d w ->
  is_Some (preparedStmt d s w).1.1 ->
  let d1 := (preparedStmt d s w).1.2 in
  let w1 := (preparedStmt d s w).2 in
  exists e,
    cache_lookup d1 w1 (checksum s) = Some e /\ ce_sql e = s
    /\ preparedStmt d1 s w1
       = (Some (bound_stmt d1 (ce_stmt e) w1).1, d1,
          (bound_stmt d1 (ce_stmt e) w1).2)
    /\ caches (preparedStmt d1 s w1).2 = caches w1
    /\ count_calls is_prepare (history (preparedStmt d1 s w1).2)
       = count_calls is_prepare (history w1).
Proof.
  intros Hv Hsome d1 w1.
  destruct (preparedStmt_cached d s w Hv Hsome) as (e & Hl & He).
  fold d1 w1 in Hl. exists e. split; [done|]. split; [done|].
  rewrite (preparedStmt_hit checksum Prepare_r Stmt_r d1 s w1 e Hl He).
  split; [done|]. cbn [snd]. apply bound_stmt_world.
Qed.

(** X7.  Inside a transaction, what [preparedStmt] returns is the
    answer of [tx.Stmt], its last call, for the statement that the cache
    holds under the text: the cache keeps the statement as prepared, and
    every use in the transaction goes through [tx.Stmt]. *)
Theorem preparedStmt_binds_in_transaction d t s w st :
  valid_cache d w ->
  tx d = Some t ->
  (preparedStmt d s w).1.1 = Some st ->
  exists raw h,
    history (preparedStmt d s w).2 = h ++ [TxStmt t raw]
    /\ st = Stmt_r h t raw
    /\ cache_lookup (preparedStmt d s w).1.2 (preparedStmt d s w).2
         (checksum s) = Some (CacheEntry s raw).
Proof.
  intros Hv Ht Hst.
  assert (Hfresh :
    (forall e, cache_lookup d w (checksum s) = Some e -> ce_sql e <> s) ->
    exists raw h,
      history (preparedStmt d s w).2 = h ++ [TxStmt t raw]
      /\ st = Stmt_r h t raw
      /\ cache_lookup (preparedStmt d s w).1.2 (preparedStmt d s w).2
           (checksum s) = Some (CacheEntry s raw)).
  { intros Hmiss.
    pose proof (preparedStmt_fresh checksum Prepare_r Stmt_r d s w Hv Hmiss)
      as Hf.
    unfold prepares_afresh in Hf. rewrite Ht in Hf.
    destruct ((Prepare_r (history w) s).1) as [stmt|].
    - destruct Hf as (d' & w' & Hr & Hc & Hh & _).
      rewrite Hr in Hst |- *. cbn [fst snd] in Hst |- *.
      injection Hst as <-.
      exists stmt, (history w ++ [SqlDbPrepare (sqlDb d) s]).
      split; [|done]. rewrite Hh. by rewrite <- app_assoc.
    - by rewrite Hf in Hst. }
  destruct (cache_lookup d w (checksum s)) as [e|] eqn:Hl.
  - destruct (decide (ce_sql e = s)) as [He|He].
    + rewrite (preparedStmt_hit checksum Prepare_r Stmt_r d s w e Hl He)
        in Hst |- *.
      unfold Sql.bound_stmt in *. rewrite Ht in Hst |- *.
      cbn [fst snd log history] in Hst |- *. injection Hst as <-.
      exists (ce_stmt e), (history w). split; [done|]. split; [done|].
      rewrite cache_lookup_log, Hl. destruct e as [sq stm]. cbn in He.
      by subst sq.
    + apply Hfresh. intros e' He'. by injection He' as <-.
  - apply Hfresh. intros e' He'. done.
Qed.

(** X8.  A handle returned by [Begin] shares the cache of the handle it
    was begun on only if that handle had a cache map by then: a statement
    prepared through the new handle is found by the old one in that case,
    and is not when the old handle had prepared nothing before. *)
Theorem cache_shared_after_Begin d t s stmt err w :
  valid_cache d w ->
  tx d = None ->
  Begin_r (history w) = inl t ->
  let w1 := log (SqlDbBegin (sqlDb d)) w in
  let dc := mkDB (sqlDb d) (Some t) (txDone d) (ConnTx t)
                 (replacesPlaceholders d) (cache d) in
  (forall e, cache_lookup dc w1 (checksum s) = Some e -> ce_sql e <> s) ->
  Prepare_r (history w1) s = (Some stmt, err) ->
  Begin d w = ((Some dc, None), d, w1)
  /\ cache_lookup d (preparedStmt dc s w1).2 (checksum s)
     = match cache d with
       | Some _ => Some (CacheEntry s stmt)
       | None => None
       end.
Proof.
  intros Hv Htx Hb w1 dc Hmiss Hprep.
  split; [unfold Sql.Begin; by rewrite Htx, Hb|].
  unfold Sql.preparedStmt.
  assert (Hfresh :
    match cache_lookup dc w1 (checksum s) with
    | Some cached => String.eqb (ce_sql cached) s = false
    | None => True
    end).
  { destruct (cache_lookup dc w1 (checksum s)) as [e|] eqn:Hl; [|done].
    apply String.eqb_neq. by apply Hmiss. }
  assert (Hstore :
    cache_lookup d
      (let '(d2, w2) := cache_store dc (checksum s) (CacheEntry s stmt)
                          (log (SqlDbPrepare (sqlDb dc) s) w1) in
       let '(st, w3) := bound_stmt d2 stmt w2 in (Some st, d2, w3)).2
      (checksum s)
    = match cache d with
      | Some _ => Some (CacheEntry s stmt)
      | None => None
      end).
  { unfold cache_store, cache_lookup, Sql.bound_stmt.
    cbn [cache dc tx]. destruct (cache d) as [r|] eqn:Hc; cbn.
    - pose proof (Hv r Hc) as Hr.
      destruct (lookup_lt_is_Some_2 (caches w) r Hr) as [m Hm].
      rewrite list_lookup_alter_eq, Hm. cbn. by rewrite lookup_insert_eq.
    - done. }
  destruct (cache_lookup dc w1 (checksum s)) as [e|];
    [rewrite Hfresh|]; rewrite Hprep; exact Hstore.
Qed.

(** X9.  [Commit] and [Rollback] on a handle inside a transaction make
    their one call on the transaction and mark the handle done before
    they know the answer, so that a [Close] after them does nothing and
    returns no error, also when the commit has failed. *)
Theorem finished_transaction_is_left_alone d t w :
  tx d = Some t ->
  (Commit d w = (err_r (history w) (TxCommit t), set_txDone d,
                 log (TxCommit t) w)
   /\ Close (set_txDone d) (log (TxCommit t) w)
      = (None, set_txDone d, log (TxCommit t) w))
  /\ (Rollback d w = (err_r (history w) (TxRollback t), set_txDone d,
                      log (TxRollback t) w)
      /\ Close (set_txDone d) (log (TxRollback t) w)
         = (None, set_txDone d, log (TxRollback t) w)).
Proof.
  intros Ht. unfold Sql.Commit, Sql.Rollback, Sql.Close. rewrite Ht.
  cbn [set_txDone tx txDone negb]. by rewrite Ht.
Qed.

End Handles.

(** ** Quoting *)

Lemma string_of_byte_ascii q :
  (N_of_ascii q < 128)%N -> string_of_byte q = String q "".
Proof.
  intros Hq. unfold string_of_byte.
  by replace (N_of_ascii q <? 128)%N with true
    by (symmetry; by apply N.ltb_lt).
Qed.

Lemma prefix_single q c rest :
  String.prefix (String q "") (String c rest) = Ascii.eqb c q.
Proof.
  cbn. destruct (Ascii.ascii_dec q c) as [->|Hne].
  - rewrite Ascii.eqb_refl. by destruct rest.
  - symmetry. apply Ascii.eqb_neq. congruence.
Qed.

(** Replacing a single byte goes byte by byte. *)
Lemma Replace_single q e s :
  Replace s (String q "") (String e (String q ""))
  = (fix go (s : string) : string :=
       match s with
       | EmptyString => EmptyString
       | String c rest =>
           ((if Ascii.eqb c q then String e (String q "") else String c "")
              ++ go rest)%string
       end) s.
Proof.
  unfold Replace. induction s as [|c s IH]; [done|].
  cbn [Replace_from]. rewrite prefix_single.
  cbn [String.length Nat.sub]. rewrite IH.
  by destruct (Ascii.eqb c q).
Qed.

Lemma quoteWith_escape_bytes s q :
  (N_of_ascii q < 128)%N ->
  quoteWith s q = String q (escape_bytes q s ++ String q "")%string.
Proof.
  intros Hq. unfold quoteWith. rewrite (string_of_byte_ascii q Hq).
  assert (Hesc : forall e,
    e = (if Ascii.eqb q squote then squote else backslash) ->
    (fix go (s : string) : string :=
       match s with
       | EmptyString => EmptyString
       | String c rest =>
           ((if Ascii.eqb c q then String e (String q "") else String c "")
              ++ go rest)%string
       end) s = escape_bytes q s).
  { intros e ->. induction s as [|c s IH]; [done|].
    cbn [escape_bytes]. unfold escape_byte at 1. by rewrite IH. }
  destruct (Ascii.eqb q squote) eqn:Hsq.
  - apply Ascii.eqb_eq in Hsq. subst q.
    by rewrite (Replace_single squote squote s), (Hesc squote).
  - by rewrite (Replace_single q backslash s), (Hesc backslash).
Qed.

Lemma append_inv_tail (s s' t : string) :
  (s ++ t)%string = (s' ++ t)%string -> s = s'.
Proof.
  revert s'. induction s as [|a s IH]; intros [|a' s'] Heq; [done| | |].
  - apply (f_equal String.length) in Heq.
    change (String.length t = S (String.length (s' ++ t)%string)) in Heq.
    rewrite length_append in Heq. lia.
  - apply (f_equal String.length) in Heq.
    change (S (String.length (s ++ t)%string) = String.length t) in Heq.
    rewrite length_append in Heq. lia.
  - change (String a (s ++ t) = String a' (s' ++ t))%string in Heq.
    injection Heq as -> Heq. f_equal. by apply IH.
Qed.

(** The escaped forms of two texts differ where the texts do. *)
Lemma escape_bytes_inj q s1 : forall s2,
  escape_bytes q s1 = escape_bytes q s2 -> s1 = s2.
Proof.
  assert (Hstart : forall c2 r1 r2,
    Ascii.eqb c2 q = false ->
    String (if Ascii.eqb q squote then squote else backslash)
           (String q (escape_bytes q r1))
    <> String c2 (escape_bytes q r2)).
  { intros c2 r1 r2 H2 Heq. injection Heq as He Hrest.
    destruct r2 as [|c3 r3]; [discriminate Hrest|].
    cbn [escape_bytes] in Hrest. unfold escape_byte in Hrest.
    destruct (Ascii.eqb c3 q) eqn:H3.
    - cbn in Hrest. injection Hrest as Hq _.
      rewrite <- He, <- Hq, Ascii.eqb_refl in H2. discriminate H2.
    - cbn in Hrest. injection Hrest as Hq _.
      rewrite <- Hq, Ascii.eqb_refl in H3. discriminate H3. }
  induction s1 as [|c1 r1 IH]; intros [|c2 r2] Heq.
  - done.
  - cbn [escape_bytes] in Heq. unfold escape_byte in Heq.
    destruct (Ascii.eqb c2 q); discriminate Heq.
  - cbn [escape_bytes] in Heq. unfold escape_byte in Heq.
    destruct (Ascii.eqb c1 q); discriminate Heq.
  - cbn [escape_bytes] in Heq. unfold escape_byte in Heq.
    destruct (Ascii.eqb c1 q) eqn:H1; destruct (Ascii.eqb c2 q) eqn:H2;
      cbn in Heq.
    + apply Ascii.eqb_eq in H1, H2. subst c1 c2.
      injection Heq as Heq. f_equal. by apply IH.
    + by apply Hstart in Heq.
    + symmetry in Heq. by apply Hstart in Heq.
    + injection Heq as -> Heq. f_equal. by apply IH.
Qed.

(** X10.  For a quote character below 0x80, [quoteWith] gives different
    texts different quoted forms: the text can be told from the literal
    or the identifier it was quoted to. *)
Theorem quoteWith_injective q s1 s2 :
  (N_of_ascii q < 128)%N ->
  quoteWith s1 q = quoteWith s2 q -> s1 = s2.
Proof.
  intros Hq. rewrite !(quoteWith_escape_bytes _ q Hq). intros Heq.
  injection Heq as Heq. apply append_inv_tail in Heq.
  by apply escape_bytes_inj in Heq.
Qed.

(** X11.  For a quote character below 0x80 the quoted form starts and
    ends with the quote, and between them holds the text with each of
    its quotes escaped, by a second quote for the single quote and by a
    backslash for any other; its length is that of the text, plus one for
    each quote in it, plus two. *)
Theorem quoteWith_length q s :
  (N_of_ascii q < 128)%N ->
  quoteWith s q = String q (escape_bytes q s ++ String q "")%string
  /\ String.length (quoteWith s q)
     = String.length s
       + length (filter (fun c => c = q) (list_ascii_of_string s)) + 2.
Proof.
  intros Hq. rewrite (quoteWith_escape_bytes s q Hq). split; [done|].
  cbn [String.length]. rewrite length_append. cbn [String.length].
  assert (Hlen : String.length (escape_bytes q s)
                 = String.length s
                   + length (filter (fun c => c = q) (list_ascii_of_string s))).
  { induction s as [|c s IH]; [done|].
    cbn [escape_bytes list_ascii_of_string]. rewrite length_append, IH.
    rewrite filter_cons. unfold escape_byte.
    destruct (Ascii.eqb_spec c q) as [->|Hne].
    - rewrite decide_True by done. cbn. lia.
    - rewrite decide_False by done. cbn. lia. }
  lia.
Qed.

(** ** The properties at work *)

Lemma replacePlaceholders_without_question_mark_witness :
  contains qmark "SELECT 'it''s' FROM t" = false
  /\ replacePlaceholders dollar "SELECT 'it''s' FROM t" = "SELECT 'it''s' FROM t".
Proof.
  split; [reflexivity|].
  exact (replacePlaceholders_without_question_mark dollar
           "SELECT 'it''s' FROM t" eq_refl).
Defined.

Lemma replacePlaceholders_numbers_in_order_witness :
  plain_text "a = " = true
  /\ Forall (fun s => plain_text s = true) [" AND b = "; " AND c = "; ""]
  /\ replacePlaceholders dollar "a = ? AND b = ? AND c = ?"
     = "a = $1 AND b = $2 AND c = $3".
Proof.
  assert (Hsegs : Forall (fun s => plain_text s = true)
                    [" AND b = "; " AND c = "; ""])
    by (repeat constructor).
  split; [reflexivity|]. split; [exact Hsegs|].
  exact (replacePlaceholders_numbers_in_order dollar "a = "
           [" AND b = "; " AND c = "; ""] eq_refl Hsegs).
Defined.

Lemma replacePlaceholders_keeps_literal_witness :
  plain_text "s = " = true
  /\ contains squote "why?" = false /\ contains dquote "why?" = false
  /\ "why?" <> ""
  /\ starts_with_quote " AND x = ?" = false
  /\ replacePlaceholders dollar "s = 'why?' AND x = ?"
     = "s = 'why?' AND x = $1".
Proof.
  assert (Hne : "why?" <> "") by discriminate.
  split; [reflexivity|]. split; [reflexivity|]. split; [reflexivity|].
  split; [exact Hne|]. split; [reflexivity|].
  exact (proj1 (replacePlaceholders_keeps_literal dollar "s = " "why?"
                  " AND x = ?" eq_refl eq_refl eq_refl) Hne eq_refl).
Defined.

Lemma valid_cache_plain w : valid_cache plain w.
Proof. intros r Hr. discriminate Hr. Qed.

Lemma valid_cache_in_tx w : valid_cache in_tx w.
Proof. intros r Hr. discriminate Hr. Qed.

Lemma preparedStmt_prepares_once_witness :
  valid_cache plain w0
  /\ is_Some (preparedStmt ChecksumIEEE prepares rebinds plain "x = $1" w0).1.1
  /\ count_calls is_prepare
       (history (preparedStmt ChecksumIEEE prepares rebinds plain "x = $1" w0).2)
     = 1
  /\ exists e,
       preparedStmt ChecksumIEEE prepares rebinds
         (preparedStmt ChecksumIEEE prepares rebinds plain "x = $1" w0).1.2
         "x = $1"
         (preparedStmt ChecksumIEEE prepares rebinds plain "x = $1" w0).2
       = (Some (ce_stmt e),
          (preparedStmt ChecksumIEEE prepares rebinds plain "x = $1" w0).1.2,
          (preparedStmt ChecksumIEEE prepares rebinds plain "x = $1" w0).2).
Proof.
  assert (Hsome : is_Some
            (preparedStmt ChecksumIEEE prepares rebinds plain "x = $1" w0).1.1)
    by (by eexists).
  split; [exact (valid_cache_plain w0)|]. split; [exact Hsome|].
  split; [reflexivity|].
  destruct (preparedStmt_prepares_once ChecksumIEEE prepares rebinds plain
              "x = $1" w0 (valid_cache_plain w0) Hsome)
    as (e & _ & _ & Hsecond & _).
  exists e. exact Hsecond.
Defined.

Lemma preparedStmt_binds_in_transaction_witness :
  valid_cache in_tx w0
  /\ tx in_tx = Some 1
  /\ (preparedStmt ChecksumIEEE prepares rebinds in_tx "x = $1" w0).1.1
     = Some 1000
  /\ exists raw h,
       history (preparedStmt ChecksumIEEE prepares rebinds in_tx "x = $1" w0).2
       = h ++ [TxStmt 1 raw]
       /\ 1000 = rebinds h 1 raw
       /\ cache_lookup
            (preparedStmt ChecksumIEEE prepares rebinds in_tx "x = $1" w0).1.2
            (preparedStmt ChecksumIEEE prepares rebinds in_tx "x = $1" w0).2
            (ChecksumIEEE "x = $1")
          = Some (CacheEntry "x = $1" raw).
Proof.
  split; [exact (valid_cache_in_tx w0)|]. split; [reflexivity|].
  split; [reflexivity|].
  exact (preparedStmt_binds_in_transaction ChecksumIEEE prepares rebinds
           in_tx 1 "x = $1" w0 1000 (valid_cache_in_tx w0) eq_refl eq_refl).
Defined.

Lemma valid_cache_caching : valid_cache caching cached_plumless.
Proof. intros r Hr. injection Hr as <-. cbn. lia. Qed.

(** A handle that has a cache map shares it with the handle of its
    transaction, and one that has none does not. *)
Lemma cache_shared_after_Begin_witness :
  (valid_cache caching cached_plumless
   /\ tx caching = None
   /\ begins (history cached_plumless) = inl 0
   /\ prepares [SqlDbBegin 0] "x = $1" = (Some 1, None)
   /\ cache_lookup caching
        (preparedStmt ChecksumIEEE prepares rebinds
           (mkDB 0 (Some 0) false (ConnTx 0) true (Some 0)) "x = $1"
           (log (SqlDbBegin 0) cached_plumless)).2
        (ChecksumIEEE "x = $1")
      = Some (CacheEntry "x = $1" 1))
  /\ (valid_cache plain w0
      /\ cache_lookup plain
           (preparedStmt ChecksumIEEE prepares rebinds
              (mkDB 0 (Some 0) false (ConnTx 0) true None) "x = $1"
              (log (SqlDbBegin 0) w0)).2
           (ChecksumIEEE "x = $1")
         = None).
Proof.
  split.
  - split; [exact valid_cache_caching|]. split; [reflexivity|].
    split; [reflexivity|]. split; [reflexivity|].
    refine (proj2 (cache_shared_after_Begin ChecksumIEEE prepares begins
                     rebinds caching 0 "x = $1" 1 None cached_plumless
                     valid_cache_caching eq_refl eq_refl _ eq_refl)).
    intros e He. vm_compute in He. discriminate He.
  - split; [exact (valid_cache_plain w0)|].
    refine (proj2 (cache_shared_after_Begin ChecksumIEEE prepares begins
                     rebinds plain 0 "x = $1" 1 None w0
                     (valid_cache_plain w0) eq_refl eq_refl _ eq_refl)).
    intros e He. discriminate He.
Defined.

Lemma finished_transaction_witness :
  tx in_tx = Some 1
  /\ Commit no_error in_tx w0 = (None, set_txDone in_tx, World [TxCommit 1] [])
  /\ Close no_error (set_txDone in_tx) (World [TxCommit 1] [])
     = (None, set_txDone in_tx, World [TxCommit 1] []).
Proof.
  split; [reflexivity|].
  exact (proj1 (finished_transaction_is_left_alone no_error in_tx 1 w0 eq_refl)).
Defined.

Lemma quoteWith_injective_witness :
  (N_of_ascii squote < 128)%N
  /\ quoteWith "it's" squote = "'it''s'"
  /\ (quoteWith "it's" squote = quoteWith "it's" squote -> "it's" = "it's").
Proof.
  assert (Hq : (N_of_ascii squote < 128)%N) by (vm_compute; reflexivity).
  split; [exact Hq|]. split; [reflexivity|].
  exact (quoteWith_injective squote "it's" "it's" Hq).
Defined.

Lemma quoteWith_length_witness :
  (N_of_ascii "`" < 128)%N
  /\ quoteWith "a`b" "`" = String "`" (escape_bytes "`" "a`b" ++ String "`" "")%string
  /\ String.length (quoteWith "a`b" "`") = 3 + 1 + 2.
Proof.
  assert (Hq : (N_of_ascii "`" < 128)%N) by (vm_compute; reflexivity).
  split; [exact Hq|].
  exact (quoteWith_length "`" "a`b" Hq).
Defined.

End SqlMore.

(** * More on the join resolver and the field mapper *)

Module OrmMore.
Import Go Orm OrmFacts.
Local Open Scope list_scope.

(** ** Cloning *)

(** X12.  Cloning the join of a reference returns, given fuel for the
    chain behind it, a new join with the same type and condition whose
    join model starts a copy of that chain in cells that did not exist
    before: every cell of the old heap, the cloned ones included, is as
    it was. *)
Theorem join_clone_copies h ja jc l :
  joins h !! ja = Some jc ->
  chain h (join_model jc) l ->
  exists n, forall fuel, n <= fuel ->
    exists ja' m' h' l',
      join_clone fuel h ja = Ret (ja', h')
      /\ extends h h'
      /\ length (joins h) <= ja'
      /\ joins h' !! ja' = Some (mkJoin m' (join_jtype jc) (join_q jc))
      /\ chain h' m' l'
      /\ Forall (fun x => length (joinModels h) <= x) l'
      /\ Forall2 (copy_of h h') l l'.
Proof.
  intros Hja Hc. exists (length l). intros fuel Hfuel.
  destruct (joinModel_clone_chain h _ l Hc fuel Hfuel)
    as (m' & h1 & l1 & Hcl & He & Hc1 & Hf1 & Hcp).
  unfold join_clone. rewrite (deref_Some _ _ _ Hja). simpl. rewrite Hcl. simpl.
  set (jn := mkJoin m' (join_jtype jc) (join_q jc)).
  assert (He2 : extends h1 (alloc_join jn h1).2) by apply extends_alloc_join.
  exists (length (joins h1)), m', (alloc_join jn h1).2, l1.
  split; [done|]. split; [by eapply extends_trans|].
  split; [by apply extends_length_joins|].
  split; [simpl; by rewrite list_lookup_middle|].
  split; [by eapply chain_extends|]. split; [done|].
  eapply Forall2_impl; [exact Hcp|]. intros x y Hxy.
  by eapply copy_of_extends.
Qed.

(** ** Explicit joins *)

Section WithCatalog.
Variable models : gmap nat model.

Lemma last_node_chain h j nodes :
  chain h j nodes ->
  forall fuel, length nodes <= fuel ->
  exists t, last nodes = Some t /\ last_node fuel h j = Ret t.
Proof.
  induction 1 as [a c Ha Hn | a c ja jc l Ha Hs Hja Hc IH];
    intros [|fuel] Hfuel; simpl in Hfuel; try lia; simpl;
    rewrite (deref_Some _ _ _ Ha); simpl.
  - exists a. by rewrite Hn.
  - rewrite Hs, (deref_Some _ _ _ Hja). simpl.
    destruct (IH fuel) as (t & Hl & Hr); [lia|].
    exists t. split; [|done]. destruct (chain_head _ _ _ Hc) as [l' ->]. done.
Qed.

(** X13.  An explicit join on a chain that has a root model never fails:
    whatever the references, it allocates a join model for the target,
    not skipped, and hangs it on the tail of the chain by a join with the
    given type and condition.  The chain grows by this one node, and the
    rest of the heap stays as it was. *)
Theorem joinWith_explicit h j nodes target q jt :
  chain h j nodes ->
  (exists c p, joinModels h !! j = Some c /\ jm_model c = Some p) ->
  exists n, forall fuel, n <= fuel ->
    exists added h',
      joinWith models fuel j target (Some q) jt h = Ret (added, h')
      /\ hung h nodes target q jt added h'
      /\ chain h' j (nodes ++ [added]).
Proof.
  intros Hc (cj & pj & Hj & Hpj). exists (length nodes). intros fuel Hfuel.
  destruct (last_node_chain h j nodes Hc fuel Hfuel) as (t & Hl & Hlast).
  destruct (chain_last _ _ _ Hc) as (t' & tc & Hl' & Ht & Htn).
  assert (t' = t) as -> by congruence. clear Hl'.
  assert (Htlt : t < length (joinModels h)) by (by eapply lookup_lt_Some).
  unfold joinWith. rewrite (deref_Some _ _ _ Hj). simpl. rewrite Hpj, Hlast.
  simpl.
  rewrite (deref_Some _ t tc) by (by rewrite lookup_app_l).
  simpl.
  set (nm := mkJoinModel (Some target) false None).
  set (jn := mkJoin (length (joinModels h)) jt (Some q)).
  set (tn := mkJoinModel (jm_model tc) (jm_skip tc) (Some (length (joins h)))).
  set (h' := set_joinModel t tn
               (mkHeap (joinModels h ++ [nm]) (joins h ++ [jn]))).
  assert (Hadded : joinModels h' !! length (joinModels h) = Some nm).
  { simpl. rewrite list_lookup_insert_ne by lia. by rewrite list_lookup_middle. }
  assert (Ht' : joinModels h' !! t = Some tn).
  { simpl. rewrite list_lookup_insert_eq; [done|]. rewrite length_app. lia. }
  assert (Hjn : joins h' !! length (joins h) = Some jn).
  { simpl. by rewrite list_lookup_middle. }
  assert (Hframe : forall a, a < length (joinModels h) -> a <> t ->
            joinModels h' !! a = joinModels h !! a).
  { intros a Ha Hat. simpl. rewrite list_lookup_insert_ne by done.
    by rewrite lookup_app_l. }
  assert (Hjframe : forall a, a < length (joins h) ->
            joins h' !! a = joins h !! a).
  { intros a Ha. simpl. by rewrite lookup_app_l. }
  exists (length (joinModels h)), h'. split; [done|]. split.
  { exists t, tc, (length (joins h)). by repeat split. }
  eapply (chain_append h h' j nodes t (length (joins h)) jn
            [length (joinModels h)]); try done.
  - intros x c Hx Hxc. rewrite Hframe; [done | by eapply lookup_lt_Some | done].
  - intros x jx Hx. exists jx. split; [|done].
    rewrite Hjframe; [done | by eapply lookup_lt_Some].
  - by exists tn.
  - by eapply chain_tail.
Qed.

(** ** Field mapping *)

Lemma map_candidates_sound fuel h qname : forall cur acc l,
  map_candidates models fuel h cur qname acc = Ret l ->
  forall r, r ∈ l ->
    r ∈ acc \/ exists p md, models !! p = Some md /\ model_Map md qname = Ret r.
Proof.
  induction fuel as [|fuel IH]; intros cur acc l Hl r Hr; [done|].
  simpl in Hl. unfold deref in Hl.
  destruct (joinModels h !! cur) as [c|]; [|done]. simpl in Hl.
  unfold deref_model in Hl.
  destruct (jm_model c) as [p|]; [|done].
  destruct (models !! p) as [md|] eqn:Hmd; [|done]. simpl in Hl.
  assert (Hstep : forall acc', 
    (forall x, x ∈ acc' -> x ∈ acc \/ model_Map md qname = Ret x) ->
    match jm_join c with
    | Some ja =>
        deref (joins h) ja ≫= fun jc =>
          map_candidates models fuel h (join_model jc) qname acc'
    | None => Ret acc'
    end = Ret l ->
    r ∈ acc \/ exists p md, models !! p = Some md /\ model_Map md qname = Ret r).
  { intros acc' Hacc' Hrest.
    assert (Hin : r ∈ acc' \/
              exists p md, models !! p = Some md /\ model_Map md qname = Ret r).
    { destruct (jm_join c) as [ja|].
      - unfold deref in Hrest. destruct (joins h !! ja) as [jc|]; [|done].
        simpl in Hrest. by eapply IH.
      - injection Hrest as <-. by left. }
    destruct Hin as [Hin|Hin]; [|by right].
    destruct (Hacc' r Hin) as [?|?]; [by left | right; eauto]. }
  destruct (model_Map md qname) as [nt|e| |] eqn:Hmap; simpl in Hl; try done.
  - apply (Hstep (acc ++ [nt])); [|done].
    intros x Hx. apply elem_of_app in Hx as [Hx|Hx]; [by left|].
    apply list_elem_of_singleton in Hx as ->. by right.
  - apply (Hstep acc); [|done]. intros x Hx. by left.
Qed.

Lemma map_candidates_no_error fuel h qname : forall cur acc e,
  map_candidates models fuel h cur qname acc <> Fail e.
Proof.
  induction fuel as [|fuel IH]; intros cur acc e; [done|].
  simpl. unfold deref, deref_model.
  destruct (joinModels h !! cur) as [c|]; [|done]. simpl.
  destruct (jm_model c) as [p|]; [|done].
  destruct (models !! p) as [md|]; [|done]. simpl.
  destruct (model_Map md qname); simpl; try done;
    (destruct (jm_join c) as [ja|]; [|done]);
    (destruct (joins h !! ja) as [jc|]; [|done]); simpl; apply IH.
Qed.

(** X14.  Whatever the heap, [joinModel.Map] answers with a column and a
    type only if a registered model maps the name to them, and the only
    errors it returns are that the name, as it was given, cannot be
    mapped or is ambiguous: the error of a model that the prefix does not
    name is never passed on. *)
Theorem joinModel_Map_answers fuel h j qname :
  match joinModel_Map models fuel h j qname with
  | Ret r => exists p md, models !! p = Some md /\ model_Map md qname = Ret r
  | Fail e => e = errCantMap qname \/ e = errAmbiguous qname
  | Panic | OutOfFuel => True
  end.
Proof.
  unfold joinModel_Map.
  destruct (map_candidates models fuel h j qname []) as [l|e| |] eqn:Hl;
    simpl; try done.
  - destruct l as [|r [|r' l]]; [by left | | by right].
    destruct (map_candidates_sound fuel h qname j [] [r] Hl r) as [Hin|Hin];
      [by apply list_elem_of_here | by apply elem_of_nil in Hin | done].
  - by apply map_candidates_no_error in Hl.
Qed.

Lemma set_skip_cell a b h x :
  joinModels (set_skip a b h) !! x
  = (fun c => if decide (x = a)
              then mkJoinModel (jm_model c) b (jm_join c) else c)
    <$> joinModels h !! x.
Proof.
  unfold set_skip. destruct (joinModels h !! a) as [c|] eqn:Ha.
  - simpl. destruct (decide (x = a)) as [->|Hne].
    + rewrite list_lookup_insert_eq by (by eapply lookup_lt_Some).
      by rewrite Ha.
    + rewrite list_lookup_insert_ne by done.
      by destruct (joinModels h !! x).
  - destruct (decide (x = a)) as [->|Hne].
    + by rewrite Ha.
    + by destruct (joinModels h !! x).
Qed.

Lemma set_skip_joins a b h : joins (set_skip a b h) = joins h.
Proof. unfold set_skip. by destruct (joinModels h !! a). Qed.

Lemma map_candidates_set_skip a b h qname fuel : forall cur acc,
  map_candidates models fuel (set_skip a b h) cur qname acc
  = map_candidates models fuel h cur qname acc.
Proof.
  induction fuel as [|fuel IH]; intros cur acc; [done|].
  simpl. unfold deref. rewrite set_skip_cell, set_skip_joins.
  destruct (joinModels h !! cur) as [c|]; [|done]. simpl.
  assert (Hsame : forall c' : joinModel,
    jm_model c' = jm_model c -> jm_join c' = jm_join c ->
    (deref_model models (jm_model c') ≫= fun md =>
       match model_Map md qname with
       | Ret nt => Ret (acc ++ [nt])
       | Fail _ => Ret acc
       | Panic => Panic
       | OutOfFuel => OutOfFuel
       end ≫= fun candidates =>
         match jm_join c' with
         | Some ja =>
             match joins h !! ja with
             | Some x => Ret x
             | None => Panic
             end ≫= fun jc =>
               map_candidates models fuel (set_skip a b h) (join_model jc)
                 qname candidates
         | None => Ret candidates
         end)
    = (deref_model models (jm_model c) ≫= fun md =>
       match model_Map md qname with
       | Ret nt => Ret (acc ++ [nt])
       | Fail _ => Ret acc
       | Panic => Panic
       | OutOfFuel => OutOfFuel
       end ≫= fun candidates =>
         match jm_join c with
         | Some ja =>
             match joins h !! ja with
             | Some x => Ret x
             | None => Panic
             end ≫= fun jc =>
               map_candidates models fuel h (join_model jc) qname candidates
         | None => Ret candidates
         end)).
  { intros c' -> ->.
    destruct (deref_model models (jm_model c)) as [md|e| |]; simpl; try done.
    destruct (model_Map md qname); simpl; try done;
      (destruct (jm_join c) as [ja|]; [|done]);
      (destruct (joins h !! ja) as [jc|]; [|done]); simpl; apply IH. }
  destruct (decide (cur = a)); by apply Hsame.
Qed.

(** X15.  Marking a join model skipped, or not, changes no answer of
    [joinModel.Map]: the columns of a skipped join stay reachable, while
    its [Fields] accessor returns nothing. *)
Theorem skip_hides_fields_only a b h :
  (forall fuel j qname,
     joinModel_Map models fuel (set_skip a b h) j qname
     = joinModel_Map models fuel h j qname)
  /\ (is_Some (joinModels h !! a) ->
      joinModel_Fields models (set_skip a true h) a = Ret None
      /\ joinModel_Skip (set_skip a true h) a = Ret true).
Proof.
  split.
  - intros fuel j qname. unfold joinModel_Map.
    by rewrite map_candidates_set_skip.
  - intros [c Hc]. unfold joinModel_Fields, joinModel_Skip, deref.
    rewrite set_skip_cell, Hc. simpl. by rewrite decide_True.
Qed.

(** X16.  A model asked for one of its fields under its own name or
    short name answers as it does for the bare field name, with the same
    column and type or the same error. *)
Theorem model_Map_own_prefix md typ fname :
  contains pipe typ = false ->
  contains pipe fname = false ->
  answers_to md typ = true ->
  model_Map md (typ ++ String pipe fname)%string = model_Map md fname.
Proof.
  intros Htyp Hfname Hans.
  by rewrite (model_Map_qualified md typ fname Htyp), Hans,
    (model_Map_unqualified md fname Hfname).
Qed.

(** ** The order of models *)

(** X17.  [less] is no strict order: in a catalog without cycles through
    two or more models, for two models of which neither references the
    other, directly or not, it holds both ways, and it holds of a model
    and itself unless the model references itself. *)
Theorem less_holds_both_ways rank a b :
  references_closed models ->
  numbered_downwards models rank ->
  is_Some (models !! a) -> is_Some (models !! b) ->
  ~ reaches models a b -> ~ reaches models b a ->
  exists n, forall fuel, n <= fuel ->
    less models fuel a b = Ret true /\ less models fuel b a = Ret true.
Proof.
  intros Hcl Hrank Ha Hb Hab Hba. exists (S (rank a + rank b)).
  intros fuel Hfuel.
  destruct (less_reaches models rank Hcl Hrank fuel a b ltac:(lia) Ha)
    as (r1 & Hr1 & Hiff1).
  destruct (less_reaches models rank Hcl Hrank fuel b a ltac:(lia) Hb)
    as (r2 & Hr2 & Hiff2).
  apply Hiff1 in Hab. apply Hiff2 in Hba. by subst.
Qed.

(** ** Joins made for fields and sort keys *)

Lemma joinWithField_grows fuel j field jt s s' :
  joinWithField models fuel j field jt s = Ret s' ->
  s' = s
  \/ exists target md,
       (target ∉ fs_models s) /\ models !! target = Some md
       /\ fs_models s' = {[ target ]} ∪ fs_models s
       /\ fs_methods s' = fs_methods s ++ [fields_Methods (fields md)].
Proof.
  unfold joinWithField.
  destruct (IndexByte field pipe <? 0)%Z; [intros [= <-]; by left|].
  destruct (find_named models fuel (fs_heap s) j _) as [found|e| |];
    simpl; try done.
  destruct found as [target|]; [|intros [= <-]; by left].
  destruct (decide (target ∈ fs_models s)) as [Hin|Hin].
  { rewrite bool_decide_eq_true_2 by done. intros [= <-]. by left. }
  rewrite bool_decide_eq_false_2 by done.
  destruct (joinWith models fuel j target None jt (fs_heap s))
    as [[added h1]| | |]; simpl; try done.
  unfold deref. destruct (joinModels h1 !! added) as [cl|]; simpl; [|done].
  destruct (models !! target) as [md|] eqn:Hmd; simpl; [|done].
  intros [= <-]. right. by exists target, md.
Qed.

(** X18.  Whatever the sort keys, when [joinWithSort] returns, no model
    has left the visited set, the methods accumulated before are still
    the first ones, exactly one set of methods was added for each model
    that entered the visited set, and each such model is registered. *)
Theorem joinWithSort_accumulates fuel j jt sort : forall s s',
  joinWithSort models fuel j sort jt s = Ret s' ->
  fs_models s ⊆ fs_models s'
  /\ fs_methods s `prefix_of` fs_methods s'
  /\ size (fs_models s') + length (fs_methods s)
     = size (fs_models s) + length (fs_methods s')
  /\ (forall target, target ∈ fs_models s' -> target ∉ fs_models s ->
        is_Some (models !! target)).
Proof.
  induction sort as [|v rest IH]; intros s s' Hs.
  - injection Hs as <-. split; [done|]. split; [done|]. split; [lia|].
    by intros.
  - simpl in Hs.
    destruct (joinWithField models fuel j v jt s) as [s1| | |] eqn:H1;
      simpl in Hs; try done.
    destruct (IH s1 s' Hs) as (Hsub & Hpre & Hsize & Hreg).
    destruct (joinWithField_grows fuel j v jt s s1 H1)
      as [->|(target & md & Hnew & Hmd & Hm1 & Hme1)]; [done|].
    rewrite Hm1 in Hsub, Hsize, Hreg. rewrite Hme1 in Hpre, Hsize.
    split; [etrans; [apply union_subseteq_r | exact Hsub]|].
    split; [etrans; [|exact Hpre]; by apply prefix_app_r|].
    split.
    + rewrite size_union, size_singleton in Hsize
        by (by apply disjoint_singleton_l).
      rewrite length_app in Hsize. simpl in Hsize. lia.
    + intros t Ht Hnt. destruct (decide (t = target)) as [->|Hne];
        [by eexists|]. apply Hreg; [done|].
      rewrite elem_of_union, elem_of_singleton. by intros [?|?].
Qed.

Lemma chain_functional h a l1 : forall l2,
  chain h a l1 -> chain h a l2 -> l1 = l2.
Proof.
  intros l2 H1. revert l2.
  induction H1 as [a c Ha Hn | a c ja jc l Ha Hs Hja Hc IH];
    intros l2 H2; inversion H2 as [a' c' Ha' Hn' | a' c' ja' jc' l' Ha' Hs' Hja' Hc'];
    subst; try congruence.
  f_equal. apply IH.
  assert (c' = c) as -> by congruence.
  assert (ja' = ja) as -> by congruence.
  assert (jc' = jc) as -> by congruence. done.
Qed.

Lemma find_named_found h j nodes typ target :
  chain h j nodes ->
  named_of models h typ nodes = Some target ->
  forall fuel, length nodes <= fuel ->
  find_named models fuel h j typ = Ret (Some target).
Proof.
  induction 1 as [a c Ha Hn | a c ja jc l Ha Hs Hja Hc IH];
    intros Hnamed [|fuel] Hfuel; simpl in Hfuel; try lia;
    simpl in Hnamed |- *;
    destruct (node_model models h a) as [md|] eqn:Hmd; try done;
    rewrite (deref_Some _ _ _ Ha); simpl;
    rewrite (node_model_deref models _ _ _ _ Ha Hmd); simpl.
  - destruct (namedReferences md !! typ); [by injection Hnamed as ->|done].
  - destruct (namedReferences md !! typ); [by injection Hnamed as ->|].
    rewrite Hs, (deref_Some _ _ _ Hja). simpl. apply IH; [done | lia].
Qed.

Lemma named_of_app h typ nodes l target :
  named_of models h typ nodes = Some target ->
  named_of models h typ (nodes ++ l) = Some target.
Proof.
  induction nodes as [|a nodes IH]; [done|]. simpl.
  destruct (node_model models h a) as [md|]; [|done].
  destruct (namedReferences md !! typ); [done | apply IH].
Qed.

Lemma named_of_ext h h' typ nodes :
  (forall a, a ∈ nodes -> node_model models h' a = node_model models h a) ->
  named_of models h' typ nodes = named_of models h typ nodes.
Proof.
  induction nodes as [|a nodes IH]; intros Hext; [done|]. simpl.
  rewrite (Hext a (list_elem_of_here _ _)).
  destruct (node_model models h a) as [md|]; [|done].
  destruct (namedReferences md !! typ); [done|].
  apply IH. intros x Hx. apply Hext. by apply list_elem_of_further.
Qed.

Lemma chain_nodes_in_heap h a l :
  chain h a l -> forall x, x ∈ l -> x < length (joinModels h).
Proof.
  induction 1 as [a c Ha Hn | a c ja jc l Ha Hs Hja Hc IH]; intros x Hx.
  - apply list_elem_of_singleton in Hx as ->. by eapply lookup_lt_Some.
  - apply elem_of_cons in Hx as [->|Hx]; [by eapply lookup_lt_Some | by apply IH].
Qed.

(** The chain and its models after the join model that an implicit
    join has appended was marked. *)
Lemma marked_chain h j nodes c jt added h' cl :
  chain h j nodes ->
  appended h j nodes c jt added h' ->
  joinModels h' !! added = Some cl ->
  let h2 := set_joinModel added (mkJoinModel (jm_model cl) true (jm_join cl)) h' in
  (exists cc lc l1,
     joins h !! c = Some cc /\ chain h (join_model cc) lc
     /\ length l1 = length lc /\ chain h2 j (nodes ++ l1))
  /\ (forall a, a ∈ nodes -> node_model models h2 a = node_model models h a).
Proof.
  intros Hc (t & tc & cc & lc & ja & l1 & Hl & Ht & Hcc & Hlc & Ht' & Hja
             & Hjalt & Hc1 & Hf1 & Hcp & Hch & Hframe & Hjframe) Hcl h2.
  destruct (chain_head _ _ _ Hc1) as [l' ->].
  apply Forall_cons in Hf1 as [Hfresh Hf1].
  assert (Hlt : added < length (joinModels h')) by (by eapply lookup_lt_Some).
  split.
  - exists cc, lc, (added :: l'). split; [done|]. split; [done|].
    split; [symmetry; by eapply Forall2_length|].
    eapply chain_transfer_join; [exact Hch | |].
    + intros x c0 _ Hx. destruct (decide (x = added)) as [->|Hne].
      * eexists. split; [simpl; by apply list_lookup_insert_eq|].
        simpl. congruence.
      * exists c0. split; [|done]. simpl. by rewrite list_lookup_insert_ne.
    + intros x jx Hx. by exists jx.
  - intros a Ha. pose proof (chain_nodes_in_heap _ _ _ Hc a Ha) as Halt.
    unfold node_model. simpl. rewrite list_lookup_insert_ne by lia.
    destruct (decide (a = t)) as [->|Hne].
    + by rewrite Ht', Ht.
    + by rewrite Hframe.
Qed.

(** X19.  When [joinWithField] has returned for a qualified field, a
    second call for a field of the same type, with whatever join type,
    returns the state as it is: a model is joined once for all the
    conditions and sort keys that name it. *)
Theorem joinWithField_joins_once j nodes field field2 jt jt2 s :
  chain (fs_heap s) j nodes ->
  resolved models (fs_heap s) nodes ->
  joinable models (fs_heap s) nodes (field_type field) ->
  (IndexByte field pipe <? 0)%Z = false ->
  (IndexByte field2 pipe <? 0)%Z = false ->
  field_type field2 = field_type field ->
  exists n, forall fuel s', n <= fuel ->
    joinWithField models fuel j field jt s = Ret s' ->
    forall fuel2, n <= fuel2 ->
    joinWithField models fuel2 j field2 jt2 s' = Ret s'.
Proof.
  intros Hc Hres Hjoin Hq Hq2 Htyp. unfold joinWithField.
  rewrite Hq, Hq2. fold (field_type field) (field_type field2).
  rewrite Htyp. fold (field_type field) in Hjoin.
  set (typ := field_type field) in *.
  pose proof (find_named_chain models _ _ _ typ Hc Hres) as Hfind.
  destruct (named_of models (fs_heap s) typ nodes) as [target|] eqn:Hnamed.
  2: { exists (length nodes). intros fuel s' Hfuel.
       rewrite (Hfind fuel Hfuel). simpl. intros [= <-] fuel2 Hfuel2.
       by rewrite (Hfind fuel2 Hfuel2). }
  destruct (decide (target ∈ fs_models s)) as [Hin|Hin].
  { exists (length nodes). intros fuel s' Hfuel.
    rewrite (Hfind fuel Hfuel). simpl.
    rewrite bool_decide_eq_true_2 by done. intros [= <-] fuel2 Hfuel2.
    rewrite (Hfind fuel2 Hfuel2). simpl.
    by rewrite bool_decide_eq_true_2. }
  destruct (Hjoin target Hnamed) as [[md Hmd] Hvalid].
  destruct (candidates_of models (fs_heap s) target nodes)
    as [|c rest] eqn:Hcands.
  { exists (length nodes). intros fuel s' Hfuel.
    rewrite (Hfind fuel Hfuel). simpl.
    rewrite bool_decide_eq_false_2 by done.
    destruct (joinWith_implicit_run models (fs_heap s) j nodes target jt Hc
                Hres ltac:(by rewrite Hcands) fuel Hfuel) as (t & _ & ->).
    by rewrite Hcands. }
  destruct (bool_decide (rest = []) || redundant (fs_heap s) (c :: rest))
    eqn:Hkeep.
  2: { apply orb_false_iff in Hkeep as [Hrest Hred].
       exists (length nodes). intros fuel s' Hfuel.
       rewrite (Hfind fuel Hfuel). simpl.
       rewrite bool_decide_eq_false_2 by done.
       destruct (joinWith_implicit_run models (fs_heap s) j nodes target jt Hc
                   Hres ltac:(by rewrite Hcands) fuel Hfuel) as (t & _ & ->).
       rewrite Hcands, Hred.
       destruct rest as [|c2 rest];
         [by rewrite bool_decide_eq_true_2 in Hrest | done]. }
  destruct (joinWith_implicit_appends models (fs_heap s) j nodes target jt c
              rest Hc Hres Hcands Hvalid Hkeep) as [n Hn].
  pose proof Hvalid as Hv'.
  apply Forall_cons in Hv' as [(cc & lc & Hcc & Hlc) _].
  exists (n + length nodes + length lc). intros fuel s' Hfuel.
  rewrite (Hfind fuel) by lia. simpl.
  rewrite bool_decide_eq_false_2 by done.
  destruct (Hn fuel ltac:(lia)) as (added & h' & -> & Happ). simpl.
  unfold deref. destruct (joinModels h' !! added) as [cl|] eqn:Hcl; [|done].
  simpl. rewrite Hmd. simpl. intros [= <-] fuel2 Hfuel2. simpl.
  destruct (marked_chain (fs_heap s) j nodes c jt added h' cl Hc Happ Hcl)
    as [(cc' & lc' & l1 & Hcc' & Hlc' & Hlen & Hch) Hmodels].
  assert (cc' = cc) as -> by congruence.
  assert (lc' = lc) as -> by (by eapply chain_functional).
  rewrite (find_named_found _ j (nodes ++ l1) typ target Hch).
  - simpl. rewrite bool_decide_eq_true_2; [done|].
    apply elem_of_union_l. by apply elem_of_singleton.
  - apply named_of_app. rewrite (named_of_ext (fs_heap s)); done.
  - rewrite length_app. lia.
Qed.

End WithCatalog.

(** ** The example catalog, again *)

(** Cloning the join of the reference from [Event] to [User]. *)
Lemma join_clone_copies_witness :
  joins heap0 !! 0
  = Some (mkJoin 0 InnerJoin (Some (Eq "Event|UserId" (IField "User|Id"))))
  /\ chain heap0 0 [0]
  /\ exists n, forall fuel, n <= fuel ->
       exists ja' m' h' l',
         join_clone fuel heap0 0 = Ret (ja', h')
         /\ extends heap0 h'
         /\ length (joins heap0) <= ja'
         /\ joins h' !! ja'
            = Some (mkJoin m' InnerJoin
                      (Some (Eq "Event|UserId" (IField "User|Id"))))
         /\ chain h' m' l'
         /\ Forall (fun x => length (joinModels heap0) <= x) l'
         /\ Forall2 (copy_of heap0 h') [0] l'.
Proof.
  assert (Hc : chain heap0 0 [0])
    by (by apply (chain_tail heap0 0 (mkJoinModel (Some User) false None))).
  split; [reflexivity|]. split; [exact Hc|].
  exact (join_clone_copies heap0 0
           (mkJoin 0 InnerJoin (Some (Eq "Event|UserId" (IField "User|Id"))))
           [0] eq_refl Hc).
Defined.

(** [Place] joined to the query on [Event] under a condition of the
    caller's. *)
Lemma joinWith_explicit_witness :
  chain heap0 root [root]
  /\ (exists c p, joinModels heap0 !! root = Some c /\ jm_model c = Some p)
  /\ exists n, forall fuel, n <= fuel ->
       exists added h',
         joinWith catalog fuel root Place
           (Some (Eq "Event|Name" (IField "Place|City"))) RightJoin heap0
         = Ret (added, h')
         /\ hung heap0 [root] Place (Eq "Event|Name" (IField "Place|City"))
              RightJoin added h'
         /\ chain h' root ([root] ++ [added]).
Proof.
  assert (Hroot : exists c p,
            joinModels heap0 !! root = Some c /\ jm_model c = Some p).
  { exists (mkJoinModel (Some Event) false None), Event.
    split; reflexivity. }
  split; [exact chain_heap0|]. split; [exact Hroot|].
  exact (joinWith_explicit catalog heap0 root [root] Place
           (Eq "Event|Name" (IField "Place|City")) RightJoin
           chain_heap0 Hroot).
Defined.

(** The join model of [User] in the chain of [Event] and [User]. *)
Lemma skip_hides_fields_only_witness :
  is_Some (joinModels heap1 !! 4)
  /\ (forall fuel j qname,
        joinModel_Map catalog fuel (set_skip 4 true heap1) j qname
        = joinModel_Map catalog fuel heap1 j qname)
  /\ joinModel_Fields catalog (set_skip 4 true heap1) 4 = Ret None
  /\ joinModel_Skip (set_skip 4 true heap1) 4 = Ret true.
Proof.
  assert (H4 : is_Some (joinModels heap1 !! 4)) by (by eexists).
  split; [exact H4|].
  destruct (skip_hides_fields_only catalog 4 true heap1) as [Hmap Hfields].
  split; [exact Hmap | exact (Hfields H4)].
Defined.

(** [Event] answers to its short name. *)
Lemma model_Map_own_prefix_witness :
  contains pipe "Ev" = false
  /\ contains pipe "Name" = false
  /\ answers_to event_model "Ev" = true
  /\ model_Map event_model "Ev|Name" = model_Map event_model "Name".
Proof.
  split; [reflexivity|]. split; [reflexivity|]. split; [reflexivity|].
  exact (model_Map_own_prefix event_model "Ev" "Name" eq_refl eq_refl eq_refl).
Defined.

Lemma references_closed_siblings : references_closed siblings.
Proof. apply (bool_decide_unpack _). by vm_compute. Qed.

Lemma numbered_downwards_siblings : numbered_downwards siblings catalog_rank.
Proof. apply (bool_decide_unpack _). by vm_compute. Qed.

Lemma siblings_refers a b : refers siblings a b -> b = 2.
Proof.
  intros (md & Hmd & Hin). destruct a as [|[|[|a]]].
  - vm_compute in Hmd. injection Hmd as <-. simpl in Hin.
    by apply list_elem_of_singleton in Hin.
  - vm_compute in Hmd. injection Hmd as <-. simpl in Hin.
    by apply list_elem_of_singleton in Hin.
  - vm_compute in Hmd. injection Hmd as <-. simpl in Hin.
    by apply elem_of_nil in Hin.
  - unfold siblings in Hmd.
    rewrite !lookup_insert_ne, lookup_singleton_ne in Hmd by lia. done.
Qed.

Lemma siblings_reaches a b : reaches siblings a b -> b = 2.
Proof.
  induction 1 as [x y Hxy | x y z Hxy Hyz IH]; [by eapply siblings_refers | done].
Qed.

(** [Home] and [Office] both reference [City] and not each other:
    each is less than the other. *)
Lemma less_holds_both_ways_witness :
  references_closed siblings
  /\ numbered_downwards siblings catalog_rank
  /\ is_Some (siblings !! 0) /\ is_Some (siblings !! 1)
  /\ ~ reaches siblings 0 1 /\ ~ reaches siblings 1 0
  /\ exists n, forall fuel, n <= fuel ->
       less siblings fuel 0 1 = Ret true /\ less siblings fuel 1 0 = Ret true.
Proof.
  assert (H0 : is_Some (siblings !! 0)) by (by eexists).
  assert (H1 : is_Some (siblings !! 1)) by (by eexists).
  assert (H01 : ~ reaches siblings 0 1)
    by (intros H; apply siblings_reaches in H; lia).
  assert (H10 : ~ reaches siblings 1 0)
    by (intros H; apply siblings_reaches in H; lia).
  split; [exact references_closed_siblings|].
  split; [exact numbered_downwards_siblings|].
  split; [exact H0|]. split; [exact H1|].
  split; [exact H01|]. split; [exact H10|].
  exact (less_holds_both_ways siblings catalog_rank 0 1
           references_closed_siblings numbered_downwards_siblings
           H0 H1 H01 H10).
Defined.

(** A query on [Event] sorted by the name and the identifier of the
    user, and by its own identifier: [User] is joined once. *)
Lemma joinWithSort_accumulates_witness :
  exists s',
    joinWithSort catalog 3 root ["User|Name"; "Id"; "User|Id"] InnerJoin fstate0
    = Ret s'
    /\ fs_models fstate0 ⊆ fs_models s'
    /\ fs_methods fstate0 `prefix_of` fs_methods s'
    /\ size (fs_models s') + length (fs_methods fstate0)
       = size (fs_models fstate0) + length (fs_methods s')
    /\ (forall target, target ∈ fs_models s' -> target ∉ fs_models fstate0 ->
          is_Some (catalog !! target)).
Proof.
  destruct (joinWithSort catalog 3 root ["User|Name"; "Id"; "User|Id"]
              InnerJoin fstate0) as [s'|e| |] eqn:Hrun;
    [| vm_compute in Hrun; discriminate Hrun ..].
  exists s'. split; [reflexivity|].
  exact (joinWithSort_accumulates catalog 3 root InnerJoin
           ["User|Name"; "Id"; "User|Id"] fstate0 s' Hrun).
Defined.

(** A condition on the name of the user and a sort key on its
    identifier. *)
Lemma joinWithField_joins_once_witness :
  chain (fs_heap fstate0) root [root]
  /\ resolved catalog (fs_heap fstate0) [root]
  /\ joinable catalog (fs_heap fstate0) [root] (field_type "User|Name")
  /\ (IndexByte "User|Name" pipe <? 0)%Z = false
  /\ (IndexByte "User|Id" pipe <? 0)%Z = false
  /\ field_type "User|Id" = field_type "User|Name"
  /\ exists n, forall fuel s', n <= fuel ->
       joinWithField catalog fuel root "User|Name" InnerJoin fstate0 = Ret s' ->
       forall fuel2, n <= fuel2 ->
       joinWithField catalog fuel2 root "User|Id" LeftJoin s' = Ret s'.
Proof.
  split; [exact chain_heap0|]. split; [exact resolved_heap0|].
  split; [exact joinable_heap0_User|].
  split; [reflexivity|]. split; [reflexivity|]. split; [reflexivity|].
  exact (joinWithField_joins_once catalog root [root] "User|Name" "User|Id"
           InnerJoin LeftJoin fstate0 chain_heap0 resolved_heap0
           joinable_heap0_User eq_refl eq_refl eq_refl).
Defined.

End OrmMore.
